(** * OpenAI streaming adapter: request formatter, stream reconstructor,
      response and usage mappers

    A shallow embedding of the OpenAI model provider (the provider source
    file of the repository): [formatInputMessage], [mapImageBlockToOpenAI],
    [mapOaiMessageToMessage], [mapOaiUsage] and the event handlers that
    [streamChat] installs on the provider stream.

    Conventions:
    - JS [Map]/[Set] are stdpp [gmap]/[gset]; a plain object read with
      [object[key]] is a [gmap] of its own properties together with the
      members it inherits from [Object.prototype];
    - a JS number used as a tool-call position is a [Z] (the integers a
      double holds exactly); a template literal [`${n}`] of such a number
      is stdpp's decimal [pretty];
    - an optional or nullable field is an [option];
    - a handler that mutates closure variables takes and returns the state;
    - a callback that can throw returns a [Result]. *)

From Stdlib Require Import Ascii.
From stdpp Require Import gmap strings list pretty.

Set Warnings "-register-all".

Local Open Scope Z_scope.
Local Open Scope string_scope.
Local Open Scope list_scope.

(** ** JavaScript idioms *)

(** [a ?? b] *)
Definition nullish {A} (a : option A) (b : A) : A :=
  match a with
  | Some x => x
  | None => b
  end.

(** A string in a boolean context: [undefined] and [""] are falsy. *)
Definition truthy (s : option string) : option string :=
  match s with
  | Some x => if decide (x = "") then None else Some x
  | None => None
  end.

Definition newline : string := String (ascii_of_nat 10) "".

(** [`${s}`] for a string that may be [undefined]. *)
Definition template (s : option string) : string :=
  match s with
  | Some x => x
  | None => "undefined"
  end.

(** The members that ECMAScript gives [Object.prototype]: every plain
    object has them under these names without owning them.  Each of them is
    an object or a function, hence truthy. *)
Definition OBJECT_PROTOTYPE_MEMBERS : list string :=
  ["constructor"; "hasOwnProperty"; "isPrototypeOf"; "propertyIsEnumerable";
   "toLocaleString"; "toString"; "valueOf"; "__proto__";
   "__defineGetter__"; "__defineSetter__"; "__lookupGetter__"; "__lookupSetter__"].

Definition inheritedMember (key : string) : bool :=
  existsb (String.eqb key) OBJECT_PROTOTYPE_MEMBERS.

(** [Array.prototype.join]. *)
Definition join (sep : string) (parts : list string) : string :=
  String.concat sep parts.

(** * Stream reconstructor *)

Module Stream.

(** One entry of [chunk.choices[0].delta.tool_calls]; [fn_name] is
    [tc.function?.name]. *)
Record ToolCallChunk := {
  tc_index : option Z;
  tc_id : option string;
  tc_fn_name : option string
}.

(** Payload of the SDK's [tool_calls.function.arguments.delta] event. *)
Record ArgumentsDelta := {
  name : string;
  index : option Z;
  arguments_delta : string
}.

(** The raw signals whose handlers read or write the identity state or
    emit text and tool events. *)
Inductive Signal :=
| ContentDelta (delta : string)
| Chunk (tool_calls : option (list ToolCallChunk))
| ArgsDelta (event : ArgumentsDelta).

Inductive ModelEvent :=
| EvText (content : string)
| EvToolUse (toolUseId toolName : string)
| EvToolUseInput (toolUseId toolName partialInput : string).

(** The four closure variables of the observable's subscribe function. *)
Record State := {
  emittedToolCalls : gset string;
  toolCallIds : gmap Z string;
  toolCallIdsByName : gmap string string;
  nextAutoIndex : Z
}.

Definition initial : State := {|
  emittedToolCalls := ∅;
  toolCallIds := ∅;
  toolCallIdsByName := ∅;
  nextAutoIndex := 0
|}.

(** Body of the [for] loop of the [chunk] handler, for the entry at array
    position [i]. *)
Definition recordToolCall (i : Z) (tc : ToolCallChunk) (st : State) : State :=
  let index := nullish (tc_index tc) i in
  match truthy (tc_id tc) with
  | Some id =>
      let ids := <[index := id]> (toolCallIds st) in
      let byName :=
        match truthy (tc_fn_name tc) with
        | Some n => <[n := id]> (toolCallIdsByName st)
        | None => toolCallIdsByName st
        end in
      {| emittedToolCalls := emittedToolCalls st;
         toolCallIds := ids;
         toolCallIdsByName := byName;
         nextAutoIndex := nextAutoIndex st |}
  | None => st
  end.

Fixpoint chunkLoop (i : Z) (tcs : list ToolCallChunk) (st : State) : State :=
  match tcs with
  | [] => st
  | tc :: rest => chunkLoop (i + 1) rest (recordToolCall i tc st)
  end.

Definition onChunk (tool_calls : option (list ToolCallChunk)) (st : State) : State :=
  match tool_calls with
  | Some tcs => chunkLoop 0 tcs st
  | None => st
  end.

(** [event.index ?? nextAutoIndex] *)
Definition toolIndexOf (ev : ArgumentsDelta) (st : State) : Z :=
  nullish (index ev) (nextAutoIndex st).

Definition toolKeyOf (toolIndex : Z) : string := pretty toolIndex.

(** [toolCallIds.get(toolIndex) ?? toolCallIdsByName.get(toolName) ??
    `fallback_${toolIndex}`] *)
Definition toolUseIdOf (toolIndex : Z) (toolName : string) (st : State) : string :=
  nullish (toolCallIds st !! toolIndex)
    (nullish (toolCallIdsByName st !! toolName)
       ("fallback_" +:+ pretty toolIndex)).

(** Handler of [tool_calls.function.arguments.delta]. *)
Definition onArgsDelta (ev : ArgumentsDelta) (st : State) : State * list ModelEvent :=
  let toolName := name ev in
  let toolIndex := toolIndexOf ev st in
  let toolKey := toolKeyOf toolIndex in
  let toolUseId := toolUseIdOf toolIndex toolName st in
  let input := EvToolUseInput toolUseId toolName (arguments_delta ev) in
  if decide (toolKey ∈ emittedToolCalls st) then (st, [input])
  else
    ({| emittedToolCalls := {[toolKey]} ∪ emittedToolCalls st;
        toolCallIds := toolCallIds st;
        toolCallIdsByName := toolCallIdsByName st;
        nextAutoIndex := toolIndex + 1 |},
     [EvToolUse toolUseId toolName; input]).

(** One callback of the provider stream. *)
Definition handle (sig : Signal) (st : State) : State * list ModelEvent :=
  match sig with
  | ContentDelta d => (st, [EvText d])
  | Chunk tcs => (onChunk tcs st, [])
  | ArgsDelta ev => onArgsDelta ev st
  end.

(** The sequence the subscriber receives. *)
Fixpoint events (st : State) (sigs : list Signal) : list ModelEvent :=
  match sigs with
  | [] => []
  | sig :: rest =>
      let '(st', out) := handle sig st in out ++ events st' rest
  end.

Fixpoint final (st : State) (sigs : list Signal) : State :=
  match sigs with
  | [] => st
  | sig :: rest => final (handle sig st).1 rest
  end.

(** *** Instrumented run

    Events carry an id, not a position.  To speak about "the events of one
    resolved position" the run is logged: one entry per callback, with the
    position the handler resolved (for an argument delta) and what it
    emitted. *)
Record Entry := {
  signal : Signal;
  position : option Z;
  emitted : list ModelEvent
}.

Definition resolved (sig : Signal) (st : State) : option Z :=
  match sig with
  | ArgsDelta ev => Some (toolIndexOf ev st)
  | _ => None
  end.

Fixpoint log (st : State) (sigs : list Signal) : list Entry :=
  match sigs with
  | [] => []
  | sig :: rest =>
      let '(st', out) := handle sig st in
      {| signal := sig; position := resolved sig st; emitted := out |}
        :: log st' rest
  end.

(** Emitted events, each tagged with the position it was emitted for. *)
Definition tagged (l : list Entry) : list (option Z * ModelEvent) :=
  flat_map (λ e, map (pair (position e)) (emitted e)) l.

Definition isStart (ev : ModelEvent) : bool :=
  match ev with EvToolUse _ _ => true | _ => false end.

Definition isInput (ev : ModelEvent) : bool :=
  match ev with EvToolUseInput _ _ _ => true | _ => false end.

Definition at_position (p : Z) (te : option Z * ModelEvent) : bool :=
  bool_decide (te.1 = Some p).

(** The [tool_use_input] events emitted for position [p], in emission order. *)
Definition inputsAt (p : Z) (l : list Entry) : list ModelEvent :=
  filter (λ ev, isInput ev = true)
    (map snd (filter (λ te, at_position p te = true) (tagged l))).

(** The argument-delta fragments that resolved to position [p], in arrival
    order. *)
Definition fragmentsAt (p : Z) (l : list Entry) : list ArgumentsDelta :=
  flat_map (λ e,
    match signal e with
    | ArgsDelta ev => if decide (position e = Some p) then [ev] else []
    | _ => []
    end) l.

Definition eventId (ev : ModelEvent) : option string :=
  match ev with
  | EvText _ => None
  | EvToolUse i _ => Some i
  | EvToolUseInput i _ _ => Some i
  end.

Definition eventName (ev : ModelEvent) : option string :=
  match ev with
  | EvText _ => None
  | EvToolUse _ n => Some n
  | EvToolUseInput _ n _ => Some n
  end.

Definition partialInputOf (ev : ModelEvent) : string :=
  match ev with
  | EvToolUseInput _ _ s => s
  | _ => ""
  end.

(** The argument deltas that resolve to position [p], each with the state
    of the closure variables at its arrival. *)
Fixpoint arrivalsAt (p : Z) (st : State) (sigs : list Signal)
    : list (State * ArgumentsDelta) :=
  match sigs with
  | [] => []
  | sig :: rest =>
      match sig with
      | ArgsDelta ev => if decide (toolIndexOf ev st = p) then [(st, ev)] else []
      | _ => []
      end ++ arrivalsAt p (handle sig st).1 rest
  end.

End Stream.

(** * Messages, request formatter, response and usage mappers *)

Module Provider.

Definition SUPPORTED_IMAGE_TYPES : list string :=
  ["image/jpeg"; "image/png"; "image/gif"; "image/webp"].

Definition isSupportedImageType (type : string) : bool :=
  bool_decide (type ∈ SUPPORTED_IMAGE_TYPES).

(** ** Provider wire format *)

(** [PartImageNoUrl] is an [image_url] part whose [url] is [undefined]. *)
Inductive ContentPart :=
| PartText (text : string)
| PartImageUrl (url detail : string)
| PartImageNoUrl (detail : string).

(** [ChatCompletionMessageToolCall]: the [function] kind and the [custom]
    kind, which has no [function] member. *)
Inductive ToolCall :=
| FunctionCall (id fn_name fn_arguments : string)
| CustomCall (id custom_name custom_input : string).

Inductive Role := user | assistant.

(** [ChatCompletionMessageParam], as far as the formatter builds it. *)
Inductive MessageParam :=
| ToolMessage (content tool_call_id : string)
| ChatMessage (role : Role) (content : list ContentPart)
    (tool_calls : option (list ToolCall)).

(** Return value of [formatInputMessage]: one message or an array. *)
Inductive Formatted :=
| Single (m : MessageParam)
| Several (ms : list MessageParam).

(** One element of the array that [streamChat] flattens with [.flat()]. *)
Definition flat1 (f : Formatted) : list MessageParam :=
  match f with
  | Single m => [m]
  | Several ms => ms
  end.

(** [ChatCompletionMessage] of the terminal completion. *)
Record CompletionMessage := {
  cm_role : Role;
  cm_content : option string;
  cm_tool_calls : option (list ToolCall)
}.

Record PromptTokensDetails := { cached_tokens : option Z }.
Record CompletionTokensDetails := { reasoning_tokens : option Z }.

Record CompletionUsage := {
  prompt_tokens : Z;
  completion_tokens : Z;
  total_tokens : Z;
  prompt_tokens_details : option PromptTokensDetails;
  completion_tokens_details : option CompletionTokensDetails
}.

(** ** Internal representation *)

Record InputUsage := { input_total : Z; cacheRead : option Z }.
Record OutputUsage := { output_total : Z; thinking : option Z }.
Record TokenUsage := { input : InputUsage; output : OutputUsage; total : Z }.

(** [block.source]: discriminated by [type], ["base64"] or ["url"]. *)
Inductive ImageSource :=
| Base64Source (mediaType data : string)
| UrlSource (mediaType url : string).

Definition mediaTypeOf (s : ImageSource) : string :=
  match s with
  | Base64Source t _ => t
  | UrlSource t _ => t
  end.

(** Sub-blocks of a [tool_result]. *)
Inductive ResultBlock :=
| ResultText (text : string)
| ResultImage (source : ImageSource).

(** Entry of the [FileAttachmentCacheMap]. *)
Record FileAttachmentCache := { cachePath : string; signedUrl : string }.

Inductive StopReason := tool_use | end_turn.

Inductive Error :=
| SyntaxError (text : string)
| TypeError.

Inductive Result (A : Type) :=
| Ok (a : A)
| Throw (e : Error).
Arguments Ok {A} a.
Arguments Throw {A} e.

(** [Array.prototype.map] with a callback that may throw: the first throw
    ends the loop and propagates. *)
Fixpoint mapThrowing {A B} (f : A → Result B) (l : list A) : Result (list B) :=
  match l with
  | [] => Ok []
  | x :: rest =>
      match f x with
      | Throw e => Throw e
      | Ok y =>
          match mapThrowing f rest with
          | Throw e => Throw e
          | Ok ys => Ok (y :: ys)
          end
      end
  end.

(** Map our internal image block to OpenAI image block *)
Definition mapImageBlockToOpenAI (source : ImageSource) : ContentPart :=
  if isSupportedImageType (mediaTypeOf source) then
    match source with
    | Base64Source mediaType data =>
        PartImageUrl ("data:" +:+ mediaType +:+ ";base64," +:+ data) "high"
    | UrlSource _ url => PartImageUrl url "high"
    end
  else
    PartText ("[Unsupported image type: " +:+ mediaTypeOf source +:+ "]").

(** Map OpenAI usage to our internal TokenUsage *)
Definition mapOaiUsage (usage : CompletionUsage) : TokenUsage :=
  {| input := {|
       input_total := prompt_tokens usage;
       cacheRead :=
         match prompt_tokens_details usage with
         | Some d => match cached_tokens d with Some n => Some n | None => None end
         | None => None
         end |};
     output := {|
       output_total := completion_tokens usage;
       thinking :=
         match completion_tokens_details usage with
         | Some d => match reasoning_tokens d with Some n => Some n | None => None end
         | None => None
         end |};
     total := total_tokens usage |}.

Section WithJson.

(** The structured values of [tool_use.input], the clock value of
    [new Date()], and the two [JSON] built-ins.  [JSON_parse] is [None]
    where [JSON.parse] throws a [SyntaxError]. *)
Context {Json Date : Type}.
Variable JSON_parse : string → option Json.
Variable JSON_stringify : Json → string.

Inductive ContentBlock :=
| Text (text : string)
| Image (source : ImageSource)
| ToolUse (toolUseId name : string) (input : Json)
| ToolResult (toolUseId : string) (content : list ResultBlock)
| FileAttachment (fileId mimeType : string).

Record Message := {
  msg_role : Role;
  msg_content : list ContentBlock
}.

Record FinalMessage := {
  fm_role : Role;
  fm_content : list ContentBlock;
  stop_reason : StopReason;
  timestamp : Date;
  usage : option TokenUsage
}.

(** *** [formatInputMessage], user branch *)

(** The three variables the [map] callback closes over. *)
Record Locals := {
  attachmentIndex : nat;
  toolResultImageIndex : nat;
  toolMessages : list MessageParam
}.

(** Their values when the user branch is entered. *)
Definition fresh : Locals :=
  {| attachmentIndex := 0%nat; toolResultImageIndex := 0%nat; toolMessages := [] |}.

(** What the [map] callback returns: a part, an array of parts, or [null]. *)
Inductive Mapped :=
| One (p : ContentPart)
| Many (ps : list ContentPart)
| Null.

(** The [for ... of c.content] loop of the [tool_result] case. *)
Fixpoint scanToolResult (blocks : list ResultBlock) (imageIndex : nat)
    (toolResultParts : list string) (imageParts : list ContentPart)
    : nat * list string * list ContentPart :=
  match blocks with
  | [] => (imageIndex, toolResultParts, imageParts)
  | ResultText text :: rest =>
      scanToolResult rest imageIndex (toolResultParts ++ [text]) imageParts
  | ResultImage source :: rest =>
      let imageBlock := mapImageBlockToOpenAI source in
      let imageIndex := S imageIndex in
      match imageBlock with
      | PartImageUrl _ _ | PartImageNoUrl _ =>
          scanToolResult rest imageIndex
            (toolResultParts ++ ["[See image " +:+ pretty imageIndex +:+ " below]"])
            (imageParts ++ [imageBlock])
      | PartText text =>
          scanToolResult rest imageIndex (toolResultParts ++ [text]) imageParts
      end
  end.

(** What [fileAttachmentCacheMap?.[fileId]] evaluates to: an entry the map
    owns, a member the map object inherits, or [undefined] (also when
    there is no map). *)
Inductive Looked :=
| Own (entry : FileAttachmentCache)
| Inherited
| Undefined.

Definition cacheLookup (fileAttachmentCacheMap : option (gmap string FileAttachmentCache))
    (fileId : string) : Looked :=
  match fileAttachmentCacheMap with
  | Some m =>
      match m !! fileId with
      | Some entry => Own entry
      | None => if inheritedMember fileId then Inherited else Undefined
      end
  | None => Undefined
  end.

(** [cache.cachePath] and [cache.signedUrl]: an inherited member has
    neither. *)
Definition cachePathOf (cache : Looked) : option string :=
  match cache with
  | Own entry => Some (cachePath entry)
  | _ => None
  end.

Definition signedUrlOf (cache : Looked) : option string :=
  match cache with
  | Own entry => Some (signedUrl entry)
  | _ => None
  end.

(** [{ type: "image_url", image_url: { url, detail: "high" } }] *)
Definition imageUrlPart (url : option string) : ContentPart :=
  match url with
  | Some u => PartImageUrl u "high"
  | None => PartImageNoUrl "high"
  end.

(** The [map] callback. *)
Definition mapUserBlock (fileAttachmentCacheMap : option (gmap string FileAttachmentCache))
    (c : ContentBlock) (st : Locals) : Locals * Mapped :=
  match c with
  | Text text => (st, One (PartText text))
  | ToolResult toolUseId content =>
      let '(imageIndex, toolResultParts, imageParts) :=
        scanToolResult content (toolResultImageIndex st) [] [] in
      ({| attachmentIndex := attachmentIndex st;
          toolResultImageIndex := imageIndex;
          toolMessages :=
            toolMessages st ++ [ToolMessage (join newline toolResultParts) toolUseId] |},
       Many imageParts)
  | Image source => (st, One (mapImageBlockToOpenAI source))
  | FileAttachment fileId mimeType =>
      match cacheLookup fileAttachmentCacheMap fileId with
      | Undefined => (st, Null)
      | cache =>
          let n := S (attachmentIndex st) in
          let textBlock :=
            PartText ("Attachment " +:+ pretty n +:+ ":" +:+ newline +:+
                      "MIME type: " +:+ mimeType +:+ newline +:+
                      "Cached at: " +:+ template (cachePathOf cache)) in
          ({| attachmentIndex := n;
              toolResultImageIndex := toolResultImageIndex st;
              toolMessages := toolMessages st |},
           if isSupportedImageType mimeType
           then Many [textBlock; imageUrlPart (signedUrlOf cache)]
           else One textBlock)
      end
  | ToolUse _ _ _ => (st, Null)
  end.

(** [message.content.map(callback)], threading the closed-over variables. *)
Fixpoint mapUserBlocks (fileAttachmentCacheMap : option (gmap string FileAttachmentCache))
    (cs : list ContentBlock) (st : Locals) : Locals * list Mapped :=
  match cs with
  | [] => (st, [])
  | c :: rest =>
      let '(st1, r) := mapUserBlock fileAttachmentCacheMap c st in
      let '(st2, rs) := mapUserBlocks fileAttachmentCacheMap rest st1 in
      (st2, r :: rs)
  end.

Definition notNull (r : Mapped) : bool :=
  match r with Null => false | _ => true end.

(** [.flat()] on an array whose elements are parts or arrays of parts. *)
Definition flatParts (rs : list Mapped) : list ContentPart :=
  flat_map (λ r, match r with One p => [p] | Many ps => ps | Null => [] end) rs.

(** *** [formatInputMessage], assistant branch *)

Definition isToolUse (c : ContentBlock) : bool :=
  match c with ToolUse _ _ _ => true | _ => false end.

Definition textPart (c : ContentBlock) : option ContentPart :=
  match c with
  | Text text => Some (PartText text)
  | _ => None
  end.

(** The callback of [toolCalls.map]; its argument type is narrowed to
    [tool_use] by the filter before it. *)
Definition toToolCall (c : ContentBlock) : option ToolCall :=
  match c with
  | ToolUse toolUseId name input =>
      Some (FunctionCall toolUseId name (JSON_stringify input))
  | _ => None
  end.

(** Format our internal message to OpenAI message *)
Definition formatInputMessage (message : Message)
    (fileAttachmentCacheMap : option (gmap string FileAttachmentCache)) : Formatted :=
  match msg_role message with
  | user =>
      let '(st, mapped) :=
        mapUserBlocks fileAttachmentCacheMap (msg_content message) fresh in
      let mainContent := flatParts (List.filter notNull mapped) in
      let messages := if (0 <? length (toolMessages st))%nat then toolMessages st else [] in
      let messages :=
        if (0 <? length mainContent)%nat
        then messages ++ [ChatMessage user mainContent None]
        else messages in
      Several messages
  | role =>
      let toolCalls := List.filter isToolUse (msg_content message) in
      Single (ChatMessage role
                (omap textPart (msg_content message))
                (if (0 <? length toolCalls)%nat
                 then Some (omap toToolCall toolCalls)
                 else None))
  end.

(** *** [mapOaiMessageToMessage] *)

Definition isFunctionCall (c : ToolCall) : bool :=
  match c with FunctionCall _ _ _ => true | CustomCall _ _ _ => false end.

(** The callback of the [map] after the filter.  On a call without a
    [function] member, reading [c.function.name] is a [TypeError]. *)
Definition toToolUse (c : ToolCall) : Result ContentBlock :=
  match c with
  | FunctionCall id fn_name fn_arguments =>
      match JSON_parse fn_arguments with
      | Some input => Ok (ToolUse id fn_name input)
      | None => Throw (SyntaxError fn_arguments)
      end
  | CustomCall _ _ _ => Throw TypeError
  end.

(** [message.tool_calls?.length ? "tool_use" : "end_turn"] *)
Definition stopReasonOf (tool_calls : option (list ToolCall)) : StopReason :=
  match tool_calls with
  | Some calls => if (0 <? length calls)%nat then tool_use else end_turn
  | None => end_turn
  end.

(** Map OpenAI ChatCompletionMessage to our internal FinalMessage; [now] is
    what [new Date()] returns. *)
Definition mapOaiMessageToMessage (message : CompletionMessage)
    (usage : option CompletionUsage) (now : Date) : Result FinalMessage :=
  let text := Text (nullish (cm_content message) "") in
  let toolUses :=
    match cm_tool_calls message with
    | Some calls => mapThrowing toToolUse (List.filter isFunctionCall calls)
    | None => Ok []
    end in
  match toolUses with
  | Throw e => Throw e
  | Ok blocks =>
      Ok {| fm_role := cm_role message;
            fm_content := text :: blocks;
            stop_reason := stopReasonOf (cm_tool_calls message);
            timestamp := now;
            usage := match usage with Some u => Some (mapOaiUsage u) | None => None end |}
  end.

End WithJson.

Arguments ContentBlock : clear implicits.
Arguments Message : clear implicits.
Arguments FinalMessage : clear implicits.

End Provider.

(** * A JSON codec to instantiate the built-ins

    [JSON.parse] and [JSON.stringify] are parameters of [Provider].  The
    examples instantiate them with this codec for a fragment of JSON text:
    integers only, no insignificant white space, and in strings only the
    escapes of the double quote and of the backslash. *)

Module JsonText.

Inductive Value :=
| VNull
| VBool (b : bool)
| VNum (n : Z)
| VStr (s : string)
| VArr (items : list Value)
| VObj (members : list (string * Value)).

Definition dquote : ascii := ascii_of_nat 34.
Definition backslash : ascii := ascii_of_nat 92.

Fixpoint escape (s : string) : string :=
  match s with
  | EmptyString => EmptyString
  | String c rest =>
      if decide (c = dquote ∨ c = backslash)
      then String backslash (String c (escape rest))
      else String c (escape rest)
  end.

Definition quote (s : string) : string :=
  String dquote (escape s) +:+ String dquote "".

Fixpoint stringify (v : Value) : string :=
  match v with
  | VNull => "null"
  | VBool true => "true"
  | VBool false => "false"
  | VNum n => pretty n
  | VStr s => quote s
  | VArr items => "[" +:+ join "," (map stringify items) +:+ "]"
  | VObj members =>
      "{" +:+ join "," (map (λ kv, quote kv.1 +:+ ":" +:+ stringify kv.2) members) +:+ "}"
  end.

(** [s] with the prefix [p] removed. *)
Fixpoint strip (p s : string) : option string :=
  match p, s with
  | EmptyString, _ => Some s
  | String a p', String b s' => if decide (a = b) then strip p' s' else None
  | String _ _, EmptyString => None
  end.

Definition digit (c : ascii) : option Z :=
  let n := Z.of_nat (nat_of_ascii c) in
  if decide (48 ≤ n ≤ 57)%Z then Some (n - 48) else None.

Fixpoint digits (acc : Z) (s : string) : Z * string :=
  match s with
  | String c rest =>
      match digit c with
      | Some d => digits (10 * acc + d) rest
      | None => (acc, s)
      end
  | EmptyString => (acc, s)
  end.

Definition number (s : string) : option (Z * string) :=
  match s with
  | String c rest =>
      match digit c with
      | Some d => Some (digits d rest)
      | None => None
      end
  | EmptyString => None
  end.

(** The characters after an opening quote, up to the closing one. *)
Fixpoint chars (s : string) : option (string * string) :=
  match s with
  | EmptyString => None
  | String c rest =>
      if decide (c = dquote) then Some (EmptyString, rest)
      else if decide (c = backslash) then
        match rest with
        | String e rest' =>
            if decide (e = dquote ∨ e = backslash) then
              match chars rest' with
              | Some (t, r) => Some (String e t, r)
              | None => None
              end
            else None
        | EmptyString => None
        end
      else
        match chars rest with
        | Some (t, r) => Some (String c t, r)
        | None => None
        end
  end.

Fixpoint value (fuel : nat) (s : string) : option (Value * string) :=
  match fuel with
  | O => None
  | S fuel =>
      match s with
      | EmptyString => None
      | String c rest =>
          if decide (c = "n"%char) then r ← strip "null" s; Some (VNull, r)
          else if decide (c = "t"%char) then r ← strip "true" s; Some (VBool true, r)
          else if decide (c = "f"%char) then r ← strip "false" s; Some (VBool false, r)
          else if decide (c = dquote) then
            '(t, r) ← chars rest; Some (VStr t, r)
          else if decide (c = "-"%char) then
            '(n, r) ← number rest; Some (VNum (- n), r)
          else if decide (c = "["%char) then
            match rest with
            | String "]"%char r => Some (VArr [], r)
            | _ => '(vs, r) ← items fuel rest; Some (VArr vs, r)
            end
          else if decide (c = "{"%char) then
            match rest with
            | String "}"%char r => Some (VObj [], r)
            | _ => '(kvs, r) ← members fuel rest; Some (VObj kvs, r)
            end
          else '(n, r) ← number s; Some (VNum n, r)
      end
  end
with items (fuel : nat) (s : string) : option (list Value * string) :=
  match fuel with
  | O => None
  | S fuel =>
      '(v, r) ← value fuel s;
      match r with
      | String ","%char r' => '(vs, r'') ← items fuel r'; Some (v :: vs, r'')
      | String "]"%char r' => Some ([v], r')
      | _ => None
      end
  end
with members (fuel : nat) (s : string) : option (list (string * Value) * string) :=
  match fuel with
  | O => None
  | S fuel =>
      match s with
      | String q s' =>
          if decide (q = dquote) then
            '(k, r) ← chars s';
            match r with
            | String ":"%char r1 =>
                '(v, r2) ← value fuel r1;
                match r2 with
                | String ","%char r3 =>
                    '(kvs, r4) ← members fuel r3; Some ((k, v) :: kvs, r4)
                | String "}"%char r3 => Some ([(k, v)], r3)
                | _ => None
                end
            | _ => None
            end
          else None
      | EmptyString => None
      end
  end.

(** The whole text must be one value; nesting is bounded by the length. *)
Definition parse (s : string) : option Value :=
  match value (S (String.length s)) s with
  | Some (v, EmptyString) => Some v
  | _ => None
  end.

End JsonText.

(** * The claims as predicates on a run *)

Module Claims.
Import Stream.

(** Identity stability as the specification words it: all [tool_use_input]
    events of one resolved position agree on id and name. *)
Definition identity_stable (sigs : list Signal) : Prop :=
  ∀ p ev1 ev2,
    ev1 ∈ inputsAt p (log initial sigs) →
    ev2 ∈ inputsAt p (log initial sigs) →
    eventId ev1 = eventId ev2 ∧ eventName ev1 = eventName ev2.

(** The id that the lookup resolves for position [p] and name [n] from the
    ids on file: the one filed under the position, else the one filed
    under the name, else the synthesized one. *)
Definition idOnFile (st : State) (p : Z) (n : string) : string :=
  match toolCallIds st !! p with
  | Some id => id
  | None =>
      match toolCallIdsByName st !! n with
      | Some id => id
      | None => "fallback_" +:+ pretty p
      end
  end.

(** No signal of [sigs], handled in turn from [st], changes the id that the
    lookup resolves for [p] and [n]. *)
Fixpoint steady (p : Z) (n : string) (st : State) (sigs : list Signal) : bool :=
  match sigs with
  | [] => true
  | sig :: rest =>
      bool_decide (idOnFile (handle sig st).1 p n = idOnFile st p n)
      && steady p n (handle sig st).1 rest
  end.

(** The argument deltas of the stream that report index [p]. *)
Definition reported (p : Z) (sigs : list Signal) : list ArgumentsDelta :=
  flat_map (λ sig,
    match sig with
    | ArgsDelta ev => if decide (index ev = Some p) then [ev] else []
    | _ => []
    end) sigs.

Definition reportsIndex (sig : Signal) : bool :=
  match sig with
  | ArgsDelta ev => bool_decide (is_Some (index ev))
  | _ => true
  end.

(** The argument-delta fragments of a stream, in arrival order. *)
Definition fragments (sigs : list Signal) : list ArgumentsDelta :=
  omap (λ sig, match sig with ArgsDelta ev => Some ev | _ => None end) sigs.

Definition isToolEvent (ev : ModelEvent) : bool :=
  match ev with EvText _ => false | _ => true end.

(** The ids of the [tool_use_input] events, in emission order.  Every
    argument delta emits exactly one, so the k-th id is the one given to
    the k-th fragment. *)
Definition inputIds (sigs : list Signal) : list (option string) :=
  map eventId (List.filter isInput (events initial sigs)).

(** Fallback coverage as the specification words it.  The fragments carry
    nothing that tells the calls apart, so the calls are named from
    outside: [calls !! k] is the call that the k-th fragment belongs to.
    Two fragments carry the same id exactly when they belong to the same
    call: fragments of one call share its id, and different calls never
    share one, so that no argument text is attributed to another call. *)
Definition fallback_coverage (calls : list nat) (sigs : list Signal) : Prop :=
  ∀ i j ci cj idi idj,
    calls !! i = Some ci → calls !! j = Some cj →
    inputIds sigs !! i = Some idi → inputIds sigs !! j = Some idj →
    (ci = cj ↔ idi = idj).

(** A wire message with the reserved [tool] role. *)
Definition isToolMessage (m : Provider.MessageParam) : Prop :=
  match m with
  | Provider.ToolMessage _ _ => True
  | Provider.ChatMessage _ _ _ => False
  end.

End Claims.

(** * Concrete streams, messages and completions *)

Module Examples.
Import Stream Provider.

Definition delta (n : string) (i : option Z) (text : string) : Signal :=
  ArgsDelta {| name := n; index := i; arguments_delta := text |}.

Definition chunk (i : option Z) (id n : option string) : Signal :=
  Chunk (Some [{| tc_index := i; tc_id := id; tc_fn_name := n |}]).

(** The id of call 0 arrives in the raw chunk of the call's second
    fragment.  Each raw chunk is followed by the argument delta the SDK
    derives from it. *)
Definition late_id : list Signal :=
  [chunk (Some 0) None (Some "search"); delta "search" (Some 0) "[1,";
   chunk (Some 0) (Some "call_1") None; delta "search" (Some 0) "2]"].

(** Two fragments at one position that report different names. *)
Definition renamed : list Signal :=
  [chunk (Some 0) None (Some "search"); delta "search" (Some 0) "[1,";
   chunk (Some 0) None (Some "fetch"); delta "fetch" (Some 0) "2]"].

(** One call, no index and no id anywhere, arguments [[1,2]] delivered in
    two fragments. *)
Definition split_call : list Signal :=
  [chunk None None (Some "search"); delta "search" None "[1,";
   chunk None None None; delta "search" None "2]"].

(** Two interleaved calls; each id arrives before the call's first
    fragment. *)
Definition head : list Signal :=
  [chunk (Some 0) (Some "call_a") (Some "search")].

Definition body : list Signal :=
  [delta "search" (Some 0) "[1,";
   ContentDelta "thinking";
   chunk (Some 1) (Some "call_b") (Some "fetch");
   delta "fetch" (Some 1) "[";
   delta "search" (Some 0) "2]";
   delta "fetch" (Some 1) "]"].

(** After the id of call 0 is on file, a raw chunk files the same id under
    position 0 once more, and another files the id of call 1, a second
    call of the same tool, under position 1 and under the name. *)
Definition refiled : list Signal :=
  [delta "search" (Some 0) "[1,";
   chunk (Some 0) (Some "call_a") None;
   chunk (Some 1) (Some "call_b") (Some "search");
   delta "search" (Some 1) "[";
   delta "search" (Some 0) "2]";
   delta "search" (Some 1) "]"].

Definition png : ImageSource := Base64Source "image/png" "iVBORw0KGgo=".

Definition cache : option (gmap string FileAttachmentCache) :=
  Some {[ "file_1" := {| cachePath := "/cache/file_1.png";
                         signedUrl := "https://files.example/file_1.png" |} ]}.

Definition query : JsonText.Value :=
  JsonText.VObj [("q", JsonText.VStr "rocq"); ("limit", JsonText.VNum 3)].

Definition page : JsonText.Value :=
  JsonText.VObj [("urls", JsonText.VArr [JsonText.VStr "https://example.org"]);
                 ("raw", JsonText.VBool false)].

Definition assistantContent : list (ContentBlock JsonText.Value) :=
  [Text "Looking it up.";
   ToolUse "call_a" "search" query;
   ToolUse "call_b" "fetch" page].

Definition attachments : list (ContentBlock JsonText.Value) :=
  [FileAttachment "file_1" "image/png"; Text "What is on this picture?"].

Definition usageRecord : CompletionUsage :=
  {| prompt_tokens := 120; completion_tokens := 30; total_tokens := 150;
     prompt_tokens_details := Some {| cached_tokens := Some 0 |};
     completion_tokens_details := None |}.

Definition plainCompletion : CompletionMessage :=
  {| cm_role := assistant; cm_content := Some "Done."; cm_tool_calls := None |}.

Definition brokenCompletion : CompletionMessage :=
  {| cm_role := assistant; cm_content := None;
     cm_tool_calls := Some [FunctionCall "call_a" "search" "[1,2]";
                            FunctionCall "call_b" "fetch" "{oops"] |}.

Definition customCompletion : CompletionMessage :=
  {| cm_role := assistant; cm_content := None;
     cm_tool_calls := Some [CustomCall "call_c" "shell" "ls"] |}.

End Examples.

(** * The request that [streamChat] sends *)

Module Request.
Import Provider.

(** [String.prototype.startsWith] *)
Fixpoint startsWith (s p : string) {struct p} : bool :=
  match p, s with
  | EmptyString, _ => true
  | String a p', String b s' => Ascii.eqb a b && startsWith s' p'
  | String _ _, EmptyString => false
  end.

(** [String.prototype.includes] *)
Fixpoint includes (s sub : string) : bool :=
  startsWith s sub
  || match s with
     | EmptyString => false
     | String _ s' => includes s' sub
     end.

Definition isReasoningModel (model : string) : bool :=
  startsWith model "o1"
  || startsWith model "o3"
  || startsWith model "o4"
  || (startsWith model "gpt-5" && negb (startsWith model "gpt-5-chat")).

Inductive ReasoningEffort := low | medium | high.

(** The options the constructor reads for the request; the API key, base
    URL and client options go to the SDK client. *)
Record OpenAIModelProviderOptions := {
  opt_model : string;
  opt_reasoningEffort : option ReasoningEffort
}.

(** The private fields [#model] and [#reasoningEffort]. *)
Record OpenAIModelProvider := {
  model : string;
  reasoningEffort : ReasoningEffort
}.

Definition constructor (options : OpenAIModelProviderOptions) : OpenAIModelProvider :=
  {| model := opt_model options;
     reasoningEffort := nullish (opt_reasoningEffort options) low |}.

(** [get modelId] *)
Definition modelId (self : OpenAIModelProvider) : string := model self.

Section WithSchemas.

(** Tool schemas are zod values; [injectOutputSchema] (from [utils.ts]) and
    [z.toJSONSchema] are parameters. *)
Context {Json Schema JsonSchema : Type}.
Variable JSON_stringify : Json → string.
Variable injectOutputSchema : string → option Schema → string.
Variable toJSONSchema : Schema → JsonSchema.

Record Tool := {
  tool_name : string;
  tool_description : string;
  tool_schema : Schema;
  tool_outputSchema : option Schema
}.

(** [ChatCompletionTool] with [type: "function"]. *)
Record FunctionTool := {
  ft_name : string;
  ft_description : string;
  ft_parameters : JsonSchema;
  ft_strict : bool
}.

Record StreamChatParams := {
  messages : list (Message Json);
  system : string;
  maxTokens : Z;
  tools : option (list Tool);
  userId : option string
}.

Inductive RequestMessage :=
| SystemMessage (content : string)
| Param (m : MessageParam).

Record ChatRequest := {
  req_model : string;
  req_messages : list RequestMessage;
  max_completion_tokens : Z;
  req_tools : option (list FunctionTool);
  reasoning_effort : option ReasoningEffort;
  safety_identifier : option string
}.

Definition openaiTool (tool : Tool) : FunctionTool :=
  {| ft_name := tool_name tool;
     ft_description := injectOutputSchema (tool_description tool) (tool_outputSchema tool);
     ft_parameters := toJSONSchema (tool_schema tool);
     ft_strict := false |}.

(** [formattedMessages.flat()] *)
Definition formattedFlat (msgs : list (Message Json))
    (fileAttachmentCacheMap : option (gmap string FileAttachmentCache))
    : list MessageParam :=
  flat_map flat1 (map (λ m, formatInputMessage JSON_stringify m fileAttachmentCacheMap) msgs).

(** The first argument of [chat.completions.stream] in [streamChat]. *)
Definition request (self : OpenAIModelProvider) (params : StreamChatParams)
    (fileAttachmentCacheMap : option (gmap string FileAttachmentCache)) : ChatRequest :=
  let openaiTools :=
    match tools params with
    | Some ts => Some (map openaiTool ts)
    | None => None
    end in
  {| req_model := model self;
     req_messages :=
       SystemMessage (system params)
       :: map Param (formattedFlat (messages params) fileAttachmentCacheMap);
     max_completion_tokens := maxTokens params;
     req_tools := openaiTools;
     reasoning_effort :=
       if isReasoningModel (model self) then Some (reasoningEffort self) else None;
     safety_identifier := userId params |}.

End WithSchemas.

End Request.

(** * The web tools example: [extractText] *)

Module WebTools.

(** An element of [response.content]: [{ type: string; text?: string }]. *)
Record Block := {
  b_type : string;
  b_text : option string
}.

(** [b.type === "text" && b.text] in a boolean context. *)
Definition isTextBlock (b : Block) : bool :=
  bool_decide (b_type b = "text") && bool_decide (is_Some (truthy (b_text b))).

(** Extract all text blocks from an Anthropic message response.  [join]
    renders a missing element as the empty string. *)
Definition extractText (content : list Block) : string :=
  let joined :=
    join newline (map (λ b, nullish (b_text b) "") (List.filter isTextBlock content)) in
  if decide (joined = "") then "No content returned." else joined.

End WebTools.

(** * The cost example: [findPricing] *)

Module Cost.
Import Request.

(** A price in USD per million tokens; the decimal literal of the source as
    a fraction [numerator / denominator]. *)
Record Price := { numerator : Z; denominator : positive }.

Record ModelPricing := {
  inputPerMTok : Price;
  outputPerMTok : Price;
  cacheWritePerMTok : Price;
  cacheReadPerMTok : Price
}.

Definition usd (n : Z) : Price := {| numerator := n; denominator := 1 |}.
Definition cents (n : Z) : Price := {| numerator := n; denominator := 100 |}.

Definition opus_4_6 : ModelPricing :=
  {| inputPerMTok := usd 5; outputPerMTok := usd 25;
     cacheWritePerMTok := cents 625; cacheReadPerMTok := cents 50 |}.
Definition opus_4_5 : ModelPricing :=
  {| inputPerMTok := usd 5; outputPerMTok := usd 25;
     cacheWritePerMTok := cents 625; cacheReadPerMTok := cents 50 |}.
Definition opus_4_1 : ModelPricing :=
  {| inputPerMTok := usd 15; outputPerMTok := usd 75;
     cacheWritePerMTok := cents 1875; cacheReadPerMTok := cents 150 |}.
Definition opus_4 : ModelPricing :=
  {| inputPerMTok := usd 15; outputPerMTok := usd 75;
     cacheWritePerMTok := cents 1875; cacheReadPerMTok := cents 150 |}.
Definition sonnet_4_6 : ModelPricing :=
  {| inputPerMTok := usd 3; outputPerMTok := usd 15;
     cacheWritePerMTok := cents 375; cacheReadPerMTok := cents 30 |}.
Definition sonnet_4_5 : ModelPricing :=
  {| inputPerMTok := usd 3; outputPerMTok := usd 15;
     cacheWritePerMTok := cents 375; cacheReadPerMTok := cents 30 |}.
Definition sonnet_4 : ModelPricing :=
  {| inputPerMTok := usd 3; outputPerMTok := usd 15;
     cacheWritePerMTok := cents 375; cacheReadPerMTok := cents 30 |}.
Definition haiku_4_5 : ModelPricing :=
  {| inputPerMTok := usd 1; outputPerMTok := usd 5;
     cacheWritePerMTok := cents 125; cacheReadPerMTok := cents 10 |}.
Definition haiku_3_5 : ModelPricing :=
  {| inputPerMTok := cents 80; outputPerMTok := usd 4;
     cacheWritePerMTok := usd 1; cacheReadPerMTok := cents 8 |}.
Definition haiku_3 : ModelPricing :=
  {| inputPerMTok := cents 25; outputPerMTok := cents 125;
     cacheWritePerMTok := cents 30; cacheReadPerMTok := cents 3 |}.

(** The table, in the order [Object.entries] enumerates it. *)
Definition PRICING : list (string * ModelPricing) :=
  [("claude-opus-4-6", opus_4_6);
   ("claude-opus-4-5-20251101", opus_4_5);
   ("claude-opus-4-1-20250805", opus_4_1);
   ("claude-opus-4-20250514", opus_4);
   ("claude-sonnet-4-6", sonnet_4_6);
   ("claude-sonnet-4-5-20250929", sonnet_4_5);
   ("claude-sonnet-4-20250514", sonnet_4);
   ("claude-haiku-4-5-20251001", haiku_4_5);
   ("claude-3-5-haiku-latest", haiku_3_5);
   ("claude-3-haiku-20240307", haiku_3)].

(** [table[key]] for a key the table owns. *)
Fixpoint property (table : list (string * ModelPricing)) (key : string)
    : option ModelPricing :=
  match table with
  | [] => None
  | (k, v) :: rest => if String.eqb key k then Some v else property rest key
  end.

(** The [for ... of Object.entries(PRICING)] loop. *)
Fixpoint fuzzy (table : list (string * ModelPricing)) (model : string)
    : option ModelPricing :=
  match table with
  | [] => None
  | (key, pricing) :: rest =>
      if startsWith model key || startsWith key model then Some pricing
      else fuzzy rest model
  end.

(** [ReturnsInherited]: [PRICING[model]] is a member the table inherits
    from [Object.prototype], and the function returns it as it is. *)
Inductive Outcome :=
| Returns (pricing : ModelPricing)
| ReturnsInherited (member : string)
| ThrowsError (message : string).

Definition dquote : string := String (ascii_of_nat 34) "".

Definition findPricing (model : string) : Outcome :=
  match property PRICING model with
  | Some pricing => Returns pricing
  | None =>
  if inheritedMember model then ReturnsInherited model else
  match fuzzy PRICING model with
  | Some pricing => Returns pricing
  | None =>
  if includes model "opus-4-6" || includes model "opus-4.6" then Returns opus_4_6
  else if includes model "opus-4-5" || includes model "opus-4.5" then Returns opus_4_5
  else if includes model "opus-4-1" || includes model "opus-4.1" then Returns opus_4_1
  else if includes model "opus-4" || includes model "opus4" then Returns opus_4
  else if includes model "sonnet-4-6" || includes model "sonnet-4.6" then Returns sonnet_4_6
  else if includes model "sonnet-4-5" || includes model "sonnet-4.5" then Returns sonnet_4_5
  else if includes model "sonnet-4" || includes model "sonnet4" then Returns sonnet_4
  else if includes model "haiku-4-5" || includes model "haiku-4.5" then Returns haiku_4_5
  else if includes model "haiku-3-5" || includes model "haiku-3.5" then Returns haiku_3_5
  else if includes model "haiku" then Returns haiku_3
  else ThrowsError ("Unknown model: " +:+ dquote +:+ model +:+ dquote
                    +:+ ". Add pricing to PRICING table.")
  end
  end.

End Cost.

(** * Measures and shapes used to state further properties *)

Module Shapes.
Import Stream Provider.

(** What a raw signal carries for the subscriber, and what an event
    delivers of it. *)
Inductive Payload :=
| TextPayload (text : string)
| ArgsPayload (toolName text : string).

Definition carried (sig : Signal) : option Payload :=
  match sig with
  | ContentDelta d => Some (TextPayload d)
  | ArgsDelta ev => Some (ArgsPayload (name ev) (arguments_delta ev))
  | Chunk _ => None
  end.

Definition delivered (ev : ModelEvent) : option Payload :=
  match ev with
  | EvText c => Some (TextPayload c)
  | EvToolUseInput _ n s => Some (ArgsPayload n s)
  | EvToolUse _ _ => None
  end.

(** An argument delta that reports no index. *)
Definition indexless (sig : Signal) : Prop :=
  match sig with ArgsDelta ev => index ev = None | _ => True end.

(** No entry of a raw chunk carries a (non-empty) id. *)
Definition idless (sig : Signal) : bool :=
  match sig with
  | Chunk (Some tcs) => forallb (λ tc, bool_decide (truthy (tc_id tc) = None)) tcs
  | _ => true
  end.

Definition isArgsDelta (sig : Signal) : bool :=
  match sig with ArgsDelta _ => true | _ => false end.

(** The position under which the [chunk] handler files the last entry of
    [before ++ [tc]]. *)
Definition filedAt (before : list ToolCallChunk) (tc : ToolCallChunk) : Z :=
  nullish (tc_index tc) (Z.of_nat (length before)).

Definition callId (c : ToolCall) : string :=
  match c with
  | FunctionCall id _ _ => id
  | CustomCall id _ _ => id
  end.

Definition toolCallIdOf (m : MessageParam) : option string :=
  match m with
  | ToolMessage _ id => Some id
  | ChatMessage _ _ _ => None
  end.

Definition partsOf (m : MessageParam) : list ContentPart :=
  match m with
  | ToolMessage _ _ => []
  | ChatMessage _ parts _ => parts
  end.

Definition isImagePart (p : ContentPart) : bool :=
  match p with
  | PartImageUrl _ _ | PartImageNoUrl _ => true
  | PartText _ => false
  end.

(** [cache] in a boolean context. *)
Definition found (cache : Looked) : bool :=
  match cache with Undefined => false | _ => true end.

Definition isResultImage (b : ResultBlock) : bool :=
  match b with ResultImage _ => true | ResultText _ => false end.

Definition isSupportedResultImage (b : ResultBlock) : bool :=
  match b with
  | ResultImage source => isSupportedImageType (mediaTypeOf source)
  | ResultText _ => false
  end.

(** The lines of a tool-result message whose images are numbered after
    [k] earlier ones. *)
Fixpoint resultLines (k : nat) (blocks : list ResultBlock) : list string :=
  match blocks with
  | [] => []
  | ResultText text :: rest => text :: resultLines k rest
  | ResultImage source :: rest =>
      (if isSupportedImageType (mediaTypeOf source)
       then "[See image " +:+ pretty (S k) +:+ " below]"
       else "[Unsupported image type: " +:+ mediaTypeOf source +:+ "]")
      :: resultLines (S k) rest
  end.

(** The image parts a tool result hands to the main message. *)
Definition extractedImages (blocks : list ResultBlock) : list ContentPart :=
  omap (λ b,
    match b with
    | ResultImage source =>
        if isSupportedImageType (mediaTypeOf source)
        then Some (mapImageBlockToOpenAI source) else None
    | ResultText _ => None
    end) blocks.

Definition attachmentText (n : nat) (mimeType cachePath : string) : string :=
  "Attachment " +:+ pretty n +:+ ":" +:+ newline +:+
  "MIME type: " +:+ mimeType +:+ newline +:+
  "Cached at: " +:+ cachePath.

Section WithJson.
Context {Json : Type}.

Definition toolResultIds (content : list (ContentBlock Json)) : list string :=
  omap (λ c, match c with ToolResult id _ => Some id | _ => None end) content.

Definition toolUseIds (content : list (ContentBlock Json)) : list string :=
  omap (λ c, match c with ToolUse id _ _ => Some id | _ => None end) content.

(** Image sub-blocks, of any media type, in the tool results of a message. *)
Fixpoint resultImages (content : list (ContentBlock Json)) : nat :=
  match content with
  | [] => 0
  | ToolResult _ blocks :: rest =>
      length (List.filter isResultImage blocks) + resultImages rest
  | _ :: rest => resultImages rest
  end.

(** The tool-role messages of a user message, one per [tool_result], the
    images numbered after [k] earlier ones. *)
Fixpoint toolMessagesFrom (k : nat) (content : list (ContentBlock Json))
    : list MessageParam :=
  match content with
  | [] => []
  | ToolResult id blocks :: rest =>
      ToolMessage (join newline (resultLines k blocks)) id
      :: toolMessagesFrom (k + length (List.filter isResultImage blocks)) rest
  | _ :: rest => toolMessagesFrom k rest
  end.

(** File attachments for which the lookup in the cache map finds
    something: an entry of the map or a member the map object inherits. *)
Fixpoint resolvedAttachments (cache : option (gmap string FileAttachmentCache))
    (content : list (ContentBlock Json)) : nat :=
  match content with
  | [] => 0
  | FileAttachment fileId _ :: rest =>
      (if found (cacheLookup cache fileId) then 1 else 0)
      + resolvedAttachments cache rest
  | _ :: rest => resolvedAttachments cache rest
  end.

(** The content parts one block contributes to the main user message,
    when [n] attachments were resolved before it. *)
Definition blockParts (cache : option (gmap string FileAttachmentCache))
    (n : nat) (c : ContentBlock Json) : list ContentPart :=
  match c with
  | Text text => [PartText text]
  | Image source => [mapImageBlockToOpenAI source]
  | ToolResult _ blocks => extractedImages blocks
  | FileAttachment fileId mimeType =>
      match cacheLookup cache fileId with
      | Undefined => []
      | cache =>
          PartText (attachmentText (S n) mimeType (template (cachePathOf cache)))
          :: (if isSupportedImageType mimeType
              then [imageUrlPart (signedUrlOf cache)] else [])
      end
  | ToolUse _ _ _ => []
  end.

Fixpoint mainPartsFrom (cache : option (gmap string FileAttachmentCache))
    (n : nat) (content : list (ContentBlock Json)) : list ContentPart :=
  match content with
  | [] => []
  | c :: rest =>
      blockParts cache n c
      ++ mainPartsFrom cache (n + resolvedAttachments cache [c]) rest
  end.

(** Images the formatter passes on: top-level images and tool-result
    images of a supported media type, and attachments of a supported MIME
    type for which the lookup finds something. *)
Definition acceptedImages (cache : option (gmap string FileAttachmentCache))
    (c : ContentBlock Json) : nat :=
  match c with
  | Image source => if isSupportedImageType (mediaTypeOf source) then 1 else 0
  | ToolResult _ blocks => length (List.filter isSupportedResultImage blocks)
  | FileAttachment fileId mimeType =>
      if found (cacheLookup cache fileId) && isSupportedImageType mimeType
      then 1 else 0
  | _ => 0
  end.

Definition acceptedTotal (cache : option (gmap string FileAttachmentCache))
    (content : list (ContentBlock Json)) : nat :=
  sum_list (map (acceptedImages cache) content).

(** A block that leaves no trace in the formatted user message. *)
Definition vanishes (cache : option (gmap string FileAttachmentCache))
    (c : ContentBlock Json) : bool :=
  match c with
  | ToolUse _ _ _ => true
  | FileAttachment fileId _ => negb (found (cacheLookup cache fileId))
  | _ => false
  end.

End WithJson.

End Shapes.

(** * Further concrete inputs *)

Module MoreExamples.
Import Stream Provider Request Examples.

(** A raw chunk with two entries, neither of which reports an index; the
    second carries an id. *)
Definition unindexedEntry : ToolCallChunk :=
  {| tc_index := None; tc_id := None; tc_fn_name := None |}.

Definition idEntry : ToolCallChunk :=
  {| tc_index := None; tc_id := Some "call_g"; tc_fn_name := Some "search" |}.

Definition secondPlace : ArgumentsDelta :=
  {| name := "search"; index := Some 1; arguments_delta := "[1]" |}.

(** The state after one complete call of a provider that reports no index. *)
Definition afterFirstCall : State :=
  final initial [chunk None (Some "call_x") (Some "search"); delta "search" None "[1]"].

Definition nextEntry : ToolCallChunk :=
  {| tc_index := None; tc_id := Some "call_y"; tc_fn_name := Some "fetch" |}.

Definition nextDelta : ArgumentsDelta :=
  {| name := "fetch"; index := None; arguments_delta := "[2]" |}.

Definition mixedCompletion : CompletionMessage :=
  {| cm_role := assistant; cm_content := Some "Working.";
     cm_tool_calls := Some [FunctionCall "call_a" "search" "[1,2]";
                            CustomCall "call_c" "shell" "ls";
                            FunctionCall "call_b" "fetch" "{}"] |}.

Definition answers : list (ContentBlock JsonText.Value) :=
  [ToolResult "call_a" [ResultText "3 hits"];
   ToolResult "call_b" [ResultText "page"; ResultImage png];
   Text "Go on."].

Definition conversation : StreamChatParams (Json:=JsonText.Value) (Schema:=unit) :=
  {| messages :=
       [{| msg_role := user; msg_content := [Text "Find it."] |};
        {| msg_role := assistant; msg_content := assistantContent |};
        {| msg_role := user; msg_content := answers |}];
     system := "You are a search agent.";
     maxTokens := 1024;
     tools := None;
     userId := None |}.

Definition provider : OpenAIModelProvider :=
  constructor {| opt_model := "gpt-4o"; opt_reasoningEffort := None |}.

End MoreExamples.

(** * Properties of the response and usage mappers *)

Module ProviderFacts.
Import Provider.

Section Mapper.
Context {Json Date : Type}.
Variable JSON_parse : string → option Json.

Local Abbreviation mapMessage := (mapOaiMessageToMessage (Date:=Date) JSON_parse).

Lemma mapThrowing_throw {A B} (f : A → Result B) (l : list A) x e :
  x ∈ l → f x = Throw e →
  ∃ y e', y ∈ l ∧ f y = Throw e' ∧ mapThrowing f l = Throw e'.
Proof.
  induction l as [|a l IH]; intros Hin Hx; [by apply elem_of_nil in Hin|].
  simpl. destruct (f a) as [b|ea] eqn:Ha.
  - apply elem_of_cons in Hin as [->|Hin]; [congruence|].
    destruct (IH Hin Hx) as (y & e' & Hy & Hfy & ->).
    exists y, e'. split_and!; [by right|done|done].
  - exists a, ea. split_and!; [by left|done|done].
Qed.



(** The mapper returns a message whenever [JSON.parse] accepts the
    arguments of every function-kind call. *)
Lemma toToolUse_all_ok calls :
  (∀ id n a, FunctionCall id n a ∈ calls → is_Some (JSON_parse a)) →
  ∃ blocks, mapThrowing (toToolUse JSON_parse) (List.filter isFunctionCall calls)
            = Ok blocks.
Proof.
  induction calls as [|c calls IH]; intros Hall; simpl; [by eexists|].
  destruct IH as [blocks Hblocks].
  { intros id n a Hin. eapply Hall. by right. }
  destruct c as [id n a|]; simpl; [|by eexists].
  destruct (Hall id n a) as [v Hv]; [by left|].
  rewrite Hv, Hblocks. by eexists.
Qed.

Lemma mapMessage_returns message usage (now : Date) :
  (∀ calls id n a, cm_tool_calls message = Some calls →
     FunctionCall id n a ∈ calls → is_Some (JSON_parse a)) →
  ∃ fm, mapOaiMessageToMessage JSON_parse message usage now = Ok fm.
Proof.
  intros Hall. unfold mapOaiMessageToMessage.
  destruct (cm_tool_calls message) as [calls|]; [|by eexists].
  destruct (toToolUse_all_ok calls) as [blocks ->]; [by eauto|by eexists].
Qed.


(** C8: a function-kind tool call whose argument string [JSON.parse] rejects
    makes the mapping throw a [SyntaxError]; no [FinalMessage] comes out. *)
Theorem C8_malformed_arguments_throw message usage (now : Date)
    calls id fn_name fn_arguments :
  cm_tool_calls message = Some calls →
  FunctionCall id fn_name fn_arguments ∈ calls →
  JSON_parse fn_arguments = None →
  ∃ text, JSON_parse text = None ∧
    mapOaiMessageToMessage JSON_parse message usage now = Throw (SyntaxError text).
Proof.
  intros Hcalls Hin Hbad. unfold mapOaiMessageToMessage. rewrite Hcalls.
  assert (Hf : FunctionCall id fn_name fn_arguments ∈ List.filter isFunctionCall calls).
  { apply list_elem_of_In, filter_In. split; [by apply list_elem_of_In|done]. }
  destruct (mapThrowing_throw (toToolUse JSON_parse) _ _ (SyntaxError fn_arguments) Hf)
    as (y & e' & Hy & Hfy & ->).
  { simpl. by rewrite Hbad. }
  apply list_elem_of_In, filter_In in Hy as [_ Hkind].
  destruct y as [i n a|]; [|done]. simpl in Hfy.
  destruct (JSON_parse a) eqn:Ha; [done|]. injection Hfy as <-. eauto.
Qed.

(** C10: when every tool call of the completion is of a non-function kind
    (and there is at least one), the mapped message has stop reason
    [tool_use] and its content is the text block alone. *)
Theorem C10_unsupported_kinds_only message usage (now : Date) calls :
  cm_tool_calls message = Some calls →
  calls ≠ [] →
  Forall (λ c, isFunctionCall c = false) calls →
  ∃ fm, mapOaiMessageToMessage JSON_parse message usage now = Ok fm ∧
    stop_reason fm = tool_use ∧
    fm_content fm = [Text (nullish (cm_content message) "")] ∧
    Forall (λ c, isToolUse c = false) (fm_content fm).
Proof.
  intros Hcalls Hne Hall. unfold mapOaiMessageToMessage. rewrite Hcalls.
  assert (List.filter isFunctionCall calls = []) as ->.
  { clear Hcalls Hne. induction Hall as [|c l Hc _ IH]; simpl; [done|].
    by rewrite Hc. }
  simpl. eexists. split; [done|]. simpl. split_and!; [|done|by repeat constructor].
  destruct calls; done.
Qed.

End Mapper.

(** C9: the usage mapper copies the prompt and completion totals, and the
    optional counts are absent in the result exactly when they are absent
    in the record; a reported count, zero included, is kept. *)
Theorem C9_usage_optionality (u : CompletionUsage) :
  input_total (input (mapOaiUsage u)) = prompt_tokens u ∧
  output_total (output (mapOaiUsage u)) = completion_tokens u ∧
  (cacheRead (input (mapOaiUsage u)) = None ↔
     prompt_tokens_details u = None ∨
     ∃ d, prompt_tokens_details u = Some d ∧ cached_tokens d = None) ∧
  (thinking (output (mapOaiUsage u)) = None ↔
     completion_tokens_details u = None ∨
     ∃ d, completion_tokens_details u = Some d ∧ reasoning_tokens d = None) ∧
  (∀ d n, prompt_tokens_details u = Some d → cached_tokens d = Some n →
     cacheRead (input (mapOaiUsage u)) = Some n) ∧
  (∀ d n, completion_tokens_details u = Some d → reasoning_tokens d = Some n →
     thinking (output (mapOaiUsage u)) = Some n).
Proof.
  destruct u as [pt ct tt pd cd]; simpl. split_and!; try done.
  - destruct pd as [[[c|]]|]; simpl.
    + split; [done|]. by intros [?|(d & [= <-] & ?)].
    + split; [|done]. intros _. right. eauto.
    + split; [|done]. by left.
  - destruct cd as [[[r|]]|]; simpl.
    + split; [done|]. by intros [?|(d & [= <-] & ?)].
    + split; [|done]. intros _. right. eauto.
    + split; [|done]. by left.
  - by intros d n -> ->.
  - by intros d n -> ->.
Qed.

End ProviderFacts.

(** * Properties of the request formatter *)

Module FormatterFacts.
Import Provider Claims.

Section Formatter.
Context {Json Date : Type}.
Variable JSON_parse : string → option Json.
Variable JSON_stringify : Json → string.

Local Abbreviation format := (formatInputMessage JSON_stringify).
Local Abbreviation CacheMap := (option (gmap string FileAttachmentCache)).

Lemma mapUserBlocks_app (cache : CacheMap) (pre post : list (ContentBlock Json)) st :
  mapUserBlocks cache (pre ++ post) st =
  let '(st1, r1) := mapUserBlocks cache pre st in
  let '(st2, r2) := mapUserBlocks cache post st1 in
  (st2, r1 ++ r2).
Proof.
  revert st. induction pre as [|c pre IH]; intros st; simpl.
  - by destruct (mapUserBlocks cache post st).
  - destruct (mapUserBlock cache c st) as [st1 r]. rewrite IH.
    destruct (mapUserBlocks cache pre st1) as [st2 rs].
    by destruct (mapUserBlocks cache post st2).
Qed.

Lemma mapUserBlock_toolMessages (cache : CacheMap) (c : ContentBlock Json) st :
  Forall isToolMessage (toolMessages st) →
  Forall isToolMessage (toolMessages (mapUserBlock cache c st).1).
Proof.
  intros Hst. destruct c as [t|src|i n v|i blocks|f m]; simpl; try done.
  - destruct (scanToolResult blocks (toolResultImageIndex st) [] []) as [[k ps] imgs].
    simpl. apply Forall_app. split; [done|]. by repeat constructor.
  - by destruct (cacheLookup cache f).
Qed.

Lemma mapUserBlocks_toolMessages (cache : CacheMap) (cs : list (ContentBlock Json)) st :
  Forall isToolMessage (toolMessages st) →
  Forall isToolMessage (toolMessages (mapUserBlocks cache cs st).1).
Proof.
  revert st. induction cs as [|c cs IH]; intros st Hst; simpl; [done|].
  pose proof (mapUserBlock_toolMessages cache c st Hst) as H1.
  destruct (mapUserBlock cache c st) as [st1 r]. simpl in H1.
  specialize (IH st1 H1).
  by destruct (mapUserBlocks cache cs st1) as [st2 rs].
Qed.

(** What the user branch returns, in terms of the callback's results. *)
Lemma format_user (cache : CacheMap) (content : list (ContentBlock Json)) :
  let r := mapUserBlocks cache content fresh in
  let parts := flatParts (List.filter notNull r.2) in
  format {| msg_role := user; msg_content := content |} cache =
  Several (toolMessages r.1 ++
           match parts with [] => [] | _ :: _ => [ChatMessage user parts None] end).
Proof.
  unfold formatInputMessage, fresh. simpl.
  destruct (mapUserBlocks cache content _) as [st mapped]. simpl.
  destruct (toolMessages st) as [|t ts], (flatParts (List.filter notNull mapped));
    simpl; by rewrite ?app_nil_r.
Qed.

(** C4: a user message holding one [tool_result] with the text ["42"] and
    an image of a supported media type is formatted to the tool-role
    message (text, newline, placeholder for image 1) followed by the user
    message that holds exactly the converted image.  For any user message
    the tool-role messages come first, and a main message without content
    parts is left out. *)
Theorem C4_tool_result_scenario (cache : CacheMap) toolUseId source :
  isSupportedImageType (mediaTypeOf source) = true →
  formatInputMessage JSON_stringify
    {| msg_role := user;
       msg_content := [ToolResult toolUseId [ResultText "42"; ResultImage source]] |}
    cache =
  Several [ToolMessage ("42" +:+ newline +:+ "[See image 1 below]") toolUseId;
           ChatMessage user [mapImageBlockToOpenAI source] None] ∧
  (∃ url, mapImageBlockToOpenAI source = PartImageUrl url "high") ∧
  ∀ content : list (ContentBlock Json),
    ∃ tools main,
      formatInputMessage JSON_stringify
        {| msg_role := user; msg_content := content |} cache = Several (tools ++ main) ∧
      Forall isToolMessage tools ∧
      match flatParts (List.filter notNull (mapUserBlocks cache content fresh).2) with
      | [] => main = []
      | parts => main = [ChatMessage user parts None]
      end.
Proof.
  intros Hsup. split_and!.
  - unfold formatInputMessage. simpl. unfold mapImageBlockToOpenAI. rewrite Hsup.
    by destruct source.
  - unfold mapImageBlockToOpenAI. rewrite Hsup. destruct source; eauto.
  - intros content. pose proof (format_user cache content) as H. simpl in H.
    eexists _, _. split; [exact H|]. split.
    + by apply mapUserBlocks_toolMessages.
    + by destruct (flatParts _).
Qed.

(** When the lookup of the file id yields [undefined], the
    [file_attachment] block maps to [null] without touching the counters,
    and the formatted message is the one obtained without the block,
    wherever the block stands. *)
Lemma undefined_lookup_dropped (cache : CacheMap)
    (pre post : list (ContentBlock Json)) fileId mimeType :
  cacheLookup cache fileId = Undefined →
  (∀ st, mapUserBlock cache (FileAttachment (Json:=Json) fileId mimeType) st = (st, Null)) ∧
  formatInputMessage JSON_stringify
    {| msg_role := user;
       msg_content := pre ++ FileAttachment fileId mimeType :: post |} cache =
  formatInputMessage JSON_stringify
    {| msg_role := user; msg_content := pre ++ post |} cache.
Proof.
  intros Hmiss.
  assert (Hnull : ∀ st, mapUserBlock cache (FileAttachment (Json:=Json) fileId mimeType) st
                        = (st, Null)).
  { intros st. simpl. by rewrite Hmiss. }
  split; [done|].
  rewrite !format_user. simpl. rewrite !mapUserBlocks_app.
  destruct (mapUserBlocks cache pre fresh) as [st1 r1].
  simpl. rewrite Hmiss.
  destruct (mapUserBlocks cache post st1) as [st2 r2]. simpl.
  by rewrite !List.filter_app.
Qed.

(** Formatting the [tool_use] blocks and mapping the resulting calls back. *)
Lemma toolCalls_back (content : list (ContentBlock Json)) :
  Forall (λ c, match c with
               | ToolUse _ _ input => JSON_parse (JSON_stringify input) = Some input
               | _ => True
               end) content →
  mapThrowing (toToolUse JSON_parse)
    (List.filter isFunctionCall
       (omap (toToolCall JSON_stringify) (List.filter isToolUse content))) =
  Ok (List.filter isToolUse content).
Proof.
  induction 1 as [|c content Hc _ IH]; simpl; [done|].
  destruct c as [t|src|i n v|i blocks|f m]; simpl; try done.
  rewrite Hc. unfold omap in IH. by rewrite IH.
Qed.

(** C6: format an assistant message whose [tool_use] blocks are two, take
    the formatted tool calls as the tool calls of a completion and map it
    back: the two [tool_use] blocks come back with their ids, names and
    inputs, given that [JSON.parse] inverts [JSON.stringify] on the two
    inputs. *)
Theorem C6_round_trip (cache : CacheMap) (content : list (ContentBlock Json))
    id1 name1 input1 id2 name2 input2 text usage (now : Date) :
  List.filter isToolUse content = [ToolUse id1 name1 input1; ToolUse id2 name2 input2] →
  JSON_parse (JSON_stringify input1) = Some input1 →
  JSON_parse (JSON_stringify input2) = Some input2 →
  ∃ parts fm,
    formatInputMessage JSON_stringify
      {| msg_role := assistant; msg_content := content |} cache =
      Single (ChatMessage assistant parts
                (Some [FunctionCall id1 name1 (JSON_stringify input1);
                       FunctionCall id2 name2 (JSON_stringify input2)])) ∧
    mapOaiMessageToMessage JSON_parse
      {| cm_role := assistant; cm_content := text;
         cm_tool_calls := Some [FunctionCall id1 name1 (JSON_stringify input1);
                                FunctionCall id2 name2 (JSON_stringify input2)] |}
      usage now = Ok fm ∧
    List.filter isToolUse (fm_content fm) =
      [ToolUse id1 name1 input1; ToolUse id2 name2 input2] ∧
    stop_reason fm = tool_use.
Proof.
  intros Hcalls H1 H2. eexists _, _. split_and!.
  - unfold formatInputMessage. simpl. rewrite Hcalls. simpl. reflexivity.
  - unfold mapOaiMessageToMessage. simpl. rewrite H1, H2. reflexivity.
  - done.
  - done.
Qed.

End Formatter.

End FormatterFacts.

(** * Properties of the stream reconstructor *)

Module StreamFacts.
Import Stream Claims.

(** ** Unfolding a run *)

Lemma log_cons sig rest st :
  log st (sig :: rest) =
  {| signal := sig; position := resolved sig st; emitted := (handle sig st).2 |}
    :: log (handle sig st).1 rest.
Proof. simpl. by destruct (handle sig st). Qed.

Lemma log_app st pre rest :
  log st (pre ++ rest) = log st pre ++ log (final st pre) rest.
Proof.
  revert st. induction pre as [|sig pre IH]; intros st; [done|].
  rewrite <- app_comm_cons, !log_cons, IH. done.
Qed.

Lemma final_app st pre rest :
  final st (pre ++ rest) = final (final st pre) rest.
Proof. revert st. induction pre as [|sig pre IH]; intros st; simpl; auto. Qed.

Lemma tagged_cons e l :
  tagged (e :: l) = map (pair (position e)) (emitted e) ++ tagged l.
Proof. done. Qed.

(** The instrumented run emits what the subscriber receives. *)
Lemma events_tagged st sigs :
  events st sigs = map snd (tagged (log st sigs)).
Proof.
  revert st. induction sigs as [|sig sigs IH]; intros st; [done|].
  rewrite log_cons, tagged_cons, map_app. simpl.
  destruct (handle sig st) as [st' out]. simpl. rewrite IH. f_equal.
  rewrite map_map. simpl. by rewrite map_id.
Qed.

Lemma inputsAt_cons p e l :
  inputsAt p (e :: l) =
  (if decide (position e = Some p)
   then filter (λ ev, isInput ev = true) (emitted e) else []) ++ inputsAt p l.
Proof.
  unfold inputsAt. rewrite tagged_cons, filter_app, map_app, filter_app. f_equal.
  case_decide as Hp.
  - f_equal. induction (emitted e) as [|ev evs IH]; [done|]. simpl.
    rewrite filter_cons_True; [|unfold at_position; simpl; by apply bool_decide_eq_true].
    simpl. by rewrite IH.
  - induction (emitted e) as [|ev evs IH]; [done|]. simpl.
    rewrite filter_cons_False; [done|].
    unfold at_position. simpl. rewrite bool_decide_eq_true. done.
Qed.

Lemma fragmentsAt_cons p e l :
  fragmentsAt p (e :: l) =
  match signal e with
  | ArgsDelta ev => if decide (position e = Some p) then [ev] else []
  | _ => []
  end ++ fragmentsAt p l.
Proof. done. Qed.

(** ** What one callback does to the state *)

Lemma toolKeyOf_inj p q : toolKeyOf p = toolKeyOf q → p = q.
Proof. unfold toolKeyOf. apply (inj pretty). Qed.

Lemma chunkLoop_keeps i tcs st :
  emittedToolCalls (chunkLoop i tcs st) = emittedToolCalls st ∧
  nextAutoIndex (chunkLoop i tcs st) = nextAutoIndex st.
Proof.
  revert i st. induction tcs as [|tc tcs IH]; intros i st; simpl; [done|].
  destruct (IH (i + 1) (recordToolCall i tc st)) as [-> ->].
  unfold recordToolCall. by destruct (truthy (tc_id tc)).
Qed.

(** A start is emitted exactly for a position whose key is not yet in the
    set; the key is then added and nothing else is. *)
Lemma onArgsDelta_cases ev st :
  let p := toolIndexOf ev st in
  let i := toolUseIdOf p (name ev) st in
  let input := EvToolUseInput i (name ev) (arguments_delta ev) in
  ((toolKeyOf p ∈ emittedToolCalls st ∧ onArgsDelta ev st = (st, [input])) ∨
   ((toolKeyOf p ∉ emittedToolCalls st) ∧
    (onArgsDelta ev st).2 = [EvToolUse i (name ev); input] ∧
    emittedToolCalls (onArgsDelta ev st).1 = {[toolKeyOf p]} ∪ emittedToolCalls st ∧
    toolCallIds (onArgsDelta ev st).1 = toolCallIds st ∧
    toolCallIdsByName (onArgsDelta ev st).1 = toolCallIdsByName st ∧
    nextAutoIndex (onArgsDelta ev st).1 = p + 1)).
Proof.
  simpl. unfold onArgsDelta. case_decide; [left|right]; done.
Qed.

Lemma handle_emitted sig st :
  emittedToolCalls (handle sig st).1 = emittedToolCalls st ∨
  ∃ q, resolved sig st = Some q ∧
       emittedToolCalls (handle sig st).1 = {[toolKeyOf q]} ∪ emittedToolCalls st.
Proof.
  destruct sig as [d|[tcs|]|ev]; simpl; try by left.
  - left. apply chunkLoop_keeps.
  - destruct (onArgsDelta_cases ev st) as [[_ ->]|(_ & _ & H & _)]; [by left|].
    right. eauto.
Qed.

Lemma handle_emitted_mono sig st k :
  k ∈ emittedToolCalls st → k ∈ emittedToolCalls (handle sig st).1.
Proof.
  destruct (handle_emitted sig st) as [->|(q & _ & ->)]; set_solver.
Qed.

(** Every event of a callback is tagged with the position it resolved. *)
Lemma handle_start_fresh sig st p i n :
  resolved sig st = Some p →
  EvToolUse i n ∈ (handle sig st).2 →
  toolKeyOf p ∉ emittedToolCalls st.
Proof.
  destruct sig as [d|tcs|ev]; simpl; try done.
  intros [= <-].
  destruct (onArgsDelta_cases ev st) as [[_ ->]|(Hnew & _)]; [|done].
  simpl. by intros [=]%list_elem_of_singleton.
Qed.

Lemma handle_fresh_position sig st p :
  resolved sig st = Some p →
  toolKeyOf p ∉ emittedToolCalls st →
  ∃ i n d,
    (handle sig st).2 = [EvToolUse i n; EvToolUseInput i n d] ∧
    toolKeyOf p ∈ emittedToolCalls (handle sig st).1.
Proof.
  destruct sig as [d|tcs|ev]; simpl; try done.
  intros [= <-] Hfresh.
  destruct (onArgsDelta_cases ev st) as [[Hin _]|(_ & -> & -> & _)]; [done|].
  eexists _, _, _. split; [done|]. set_solver.
Qed.

(** ** One start per position *)

Lemma no_second_start sigs st p i n :
  toolKeyOf p ∈ emittedToolCalls st →
  (Some p, EvToolUse i n) ∉ tagged (log st sigs).
Proof.
  revert st. induction sigs as [|sig sigs IH]; intros st Hseen.
  - by intros ?%elem_of_nil.
  - rewrite log_cons, tagged_cons. simpl. rewrite elem_of_app. intros [Hhd|Htl].
    + apply list_elem_of_fmap in Hhd as (ev & [= Hp <-] & Hev).
      by eapply handle_start_fresh.
    + eapply IH; [|done]. by apply handle_emitted_mono.
Qed.

Lemma first_start sigs st p :
  toolKeyOf p ∉ emittedToolCalls st →
  Some p ∈ map position (log st sigs) →
  ∃ pre i n d post,
    tagged (log st sigs) =
      pre ++ (Some p, EvToolUse i n) :: (Some p, EvToolUseInput i n d) :: post ∧
    (∀ ev, (Some p, ev) ∉ pre) ∧
    (∀ i' n', (Some p, EvToolUse i' n') ∉ post).
Proof.
  revert st. induction sigs as [|sig sigs IH]; intros st Hfresh Hin.
  - by apply elem_of_nil in Hin.
  - rewrite log_cons in Hin |- *. rewrite tagged_cons. simpl in Hin |- *.
    destruct (decide (resolved sig st = Some p)) as [Hp|Hp].
    + destruct (handle_fresh_position sig st p Hp Hfresh) as (i & n & d & -> & Hseen).
      exists [], i, n, d, (tagged (log (handle sig st).1 sigs)).
      rewrite Hp. split_and!; [done|by intros ev ?%elem_of_nil|].
      intros i' n'. by apply no_second_start.
    + apply elem_of_cons in Hin as [Heq|Hin]; [congruence|].
      destruct (IH (handle sig st).1) as (pre & i & n & d & post & -> & Hpre & Hpost);
        [|done|].
      { destruct (handle_emitted sig st) as [->|(q & Hq & ->)]; [done|].
        intros [Hk%elem_of_singleton|?]%elem_of_union; [|done].
        apply toolKeyOf_inj in Hk. congruence. }
      exists (map (pair (resolved sig st)) (handle sig st).2 ++ pre), i, n, d, post.
      split_and!; [by rewrite <- app_assoc| |done].
      intros ev [Hhd|Htl]%elem_of_app; [|by eapply Hpre].
      apply list_elem_of_fmap in Hhd as (ev' & [= Hp' _] & _). congruence.
Qed.

(** C2: for every stream and every position that some argument delta of it
    resolves to, the event sequence has exactly one [tool_use] event for
    that position; no event of the position comes before it, and the event
    right after it is the position's first [tool_use_input]. *)
Theorem C2_one_start_before_inputs sigs p :
  Some p ∈ map position (log initial sigs) →
  ∃ pre i n d post,
    tagged (log initial sigs) =
      pre ++ (Some p, EvToolUse i n) :: (Some p, EvToolUseInput i n d) :: post ∧
    (∀ ev, (Some p, ev) ∉ pre) ∧
    (∀ i' n', (Some p, EvToolUse i' n') ∉ post) ∧
    events initial sigs = map snd (tagged (log initial sigs)).
Proof.
  intros Hin.
  destruct (first_start sigs initial p) as (pre & i & n & d & post & H1 & H2 & H3);
    [set_solver|done|].
  exists pre, i, n, d, post. split_and!; try done. apply events_tagged.
Qed.

(** ** Ids as resolved at arrival *)

Lemma toolUseIdOf_idOnFile st p n : toolUseIdOf p n st = idOnFile st p n.
Proof.
  unfold toolUseIdOf, idOnFile.
  destruct (toolCallIds st !! p); [done|]. simpl.
  by destruct (toolCallIdsByName st !! n).
Qed.

Lemma arrivalsAt_cons p st sig rest :
  arrivalsAt p st (sig :: rest) =
  match sig with
  | ArgsDelta ev => if decide (toolIndexOf ev st = p) then [(st, ev)] else []
  | _ => []
  end ++ arrivalsAt p (handle sig st).1 rest.
Proof. done. Qed.

Lemma inputs_as_resolved sigs st p :
  inputsAt p (log st sigs) =
  map (λ a, EvToolUseInput (idOnFile a.1 p (name a.2)) (name a.2) (arguments_delta a.2))
      (arrivalsAt p st sigs).
Proof.
  revert st. induction sigs as [|sig sigs IH]; intros st; [done|].
  rewrite log_cons, inputsAt_cons, arrivalsAt_cons, map_app, IH. f_equal.
  destruct sig as [d|tcs|ev]; [done|done|].
  cbn [position resolved emitted handle fst snd].
  destruct (decide (toolIndexOf ev st = p)) as [<-|Hne].
  - rewrite decide_True by done.
    destruct (onArgsDelta_cases ev st) as [[_ ->]|(_ & -> & _)];
      cbn [map fst snd]; by rewrite <- toolUseIdOf_idOnFile.
  - by rewrite decide_False by congruence.
Qed.

Lemma arrivals_are_fragments sigs st p :
  map snd (arrivalsAt p st sigs) = fragmentsAt p (log st sigs).
Proof.
  revert st. induction sigs as [|sig sigs IH]; intros st; [done|].
  rewrite log_cons, fragmentsAt_cons, arrivalsAt_cons, map_app, IH. f_equal.
  destruct sig as [d|tcs|ev]; simpl; [done|done|].
  destruct (decide (toolIndexOf ev st = p)) as [<-|Hne].
  - by rewrite decide_True.
  - by rewrite decide_False by congruence.
Qed.

Lemma steady_arrivals sigs st p n a :
  steady p n st sigs = true →
  a ∈ arrivalsAt p st sigs →
  idOnFile a.1 p n = idOnFile st p n.
Proof.
  revert st. induction sigs as [|sig sigs IH]; intros st; simpl.
  - by intros _ ?%elem_of_nil.
  - intros [Hsig Hrest]%andb_prop [Hhd|Htl]%elem_of_app.
    + destruct sig as [d|tcs|ev]; try by apply elem_of_nil in Hhd.
      case_decide; [|by apply elem_of_nil in Hhd].
      apply list_elem_of_singleton in Hhd. by subst.
    + apply bool_decide_eq_true in Hsig. rewrite <- Hsig. by apply IH.
Qed.

(** ** Argument text is passed through *)

Lemma inputs_follow_fragments sigs st p :
  map (λ ev, (eventName ev, partialInputOf ev)) (inputsAt p (log st sigs)) =
  map (λ f, (Some (name f), arguments_delta f)) (fragmentsAt p (log st sigs)).
Proof.
  revert st. induction sigs as [|sig sigs IH]; intros st; [done|].
  rewrite log_cons, inputsAt_cons, fragmentsAt_cons, !map_app, IH. f_equal.
  simpl. destruct sig as [d|tcs|ev]; simpl; [done|done|].
  - case_decide; [|done].
    by destruct (onArgsDelta_cases ev st) as [[_ ->]|(_ & -> & _)].
Qed.

Lemma fragments_reported sigs st p :
  Forall (λ s, reportsIndex s = true) sigs →
  fragmentsAt p (log st sigs) = reported p sigs.
Proof.
  intros Hr. revert st. induction Hr as [|sig sigs Hsig _ IH]; intros st; [done|].
  rewrite log_cons, fragmentsAt_cons, IH. simpl. f_equal.
  destruct sig as [d|tcs|ev]; simpl; try done.
  simpl in Hsig. apply bool_decide_eq_true in Hsig as [q Hq].
  unfold toolIndexOf. rewrite Hq. simpl.
  repeat case_decide; congruence.
Qed.

(** C1, counterexample: with the id of call 0 recorded after the call's
    first fragment, the two [tool_use_input] events of position 0 carry
    [fallback_0] and [call_1]; with two names reported at position 0 the
    two events carry two names. *)
Lemma C1_identity_not_stable :
  ¬ identity_stable Examples.late_id ∧ ¬ identity_stable Examples.renamed.
Proof.
  split; intros H.
  - destruct (H 0 (EvToolUseInput "fallback_0" "search" "[1,")
                  (EvToolUseInput "call_1" "search" "2]")) as [Hid _];
      [vm_compute; set_solver..|done].
  - destruct (H 0 (EvToolUseInput "fallback_0" "search" "[1,")
                  (EvToolUseInput "fallback_0" "fetch" "2]")) as [_ Hname];
      [vm_compute; set_solver..|done].
Qed.

(** C1, amended: in every stream, each [tool_use_input] event of a
    position carries the name and the argument text of its fragment and
    the id that the lookup resolves when the fragment arrives: the id on
    file for the position, else the id on file for the name, else
    [fallback_<position>].  So the events of the position agree on id and
    name exactly when its fragments report one name and the lookup resolves
    one id at each arrival.  That is so for the fragments of one name in a
    stretch [mid] of the stream in which no signal changes the id that the
    lookup resolves for the position and the name.  The texts of the events
    concatenate to the concatenation of the fragments that resolved to the
    position; when every fragment reports its index these are the
    fragments that report the position. *)
Theorem C1_ids_as_resolved_at_arrival pre mid p n :
  steady p n (final initial pre) mid = true →
  (∀ ev1 ev2,
     ev1 ∈ inputsAt p (log (final initial pre) mid) →
     ev2 ∈ inputsAt p (log (final initial pre) mid) →
     eventName ev1 = Some n → eventName ev2 = Some n →
     eventId ev1 = eventId ev2) ∧
  (∀ post,
     log initial (pre ++ mid ++ post) =
     log initial pre ++ log (final initial pre) mid
       ++ log (final initial (pre ++ mid)) post) ∧
  (∀ sigs,
     inputsAt p (log initial sigs) =
       map (λ a, EvToolUseInput (idOnFile a.1 p (name a.2)) (name a.2)
                   (arguments_delta a.2))
           (arrivalsAt p initial sigs) ∧
     map snd (arrivalsAt p initial sigs) = fragmentsAt p (log initial sigs) ∧
     ((∀ ev1 ev2,
         ev1 ∈ inputsAt p (log initial sigs) →
         ev2 ∈ inputsAt p (log initial sigs) →
         eventId ev1 = eventId ev2 ∧ eventName ev1 = eventName ev2) ↔
      (∀ a1 a2,
         a1 ∈ arrivalsAt p initial sigs →
         a2 ∈ arrivalsAt p initial sigs →
         idOnFile a1.1 p (name a1.2) = idOnFile a2.1 p (name a2.2) ∧
         name a1.2 = name a2.2)) ∧
     String.concat "" (map partialInputOf (inputsAt p (log initial sigs))) =
       String.concat "" (map arguments_delta (fragmentsAt p (log initial sigs))) ∧
     (Forall (λ s, reportsIndex s = true) sigs →
        fragmentsAt p (log initial sigs) = reported p sigs)).
Proof.
  intros Hsteady. split_and!.
  - intros ev1 ev2. rewrite inputs_as_resolved.
    intros (a1 & -> & H1)%list_elem_of_fmap (a2 & -> & H2)%list_elem_of_fmap.
    simpl. intros [= Hn1] [= Hn2]. rewrite Hn1, Hn2.
    by rewrite (steady_arrivals _ _ _ _ _ Hsteady H1),
               (steady_arrivals _ _ _ _ _ Hsteady H2).
  - intros post. by rewrite !log_app, <- final_app.
  - intros sigs. pose proof (inputs_follow_fragments sigs initial p) as H.
    split_and!; [apply inputs_as_resolved|apply arrivals_are_fragments|
                 |
                 |apply fragments_reported].
    + rewrite inputs_as_resolved. split.
      * intros Hev a1 a2 H1 H2.
        destruct (Hev _ _ (list_elem_of_fmap_2 _ _ _ H1) (list_elem_of_fmap_2 _ _ _ H2))
          as [Hid Hname].
        simpl in Hid, Hname. split; congruence.
      * intros Harr ev1 ev2 (a1 & -> & H1)%list_elem_of_fmap
                           (a2 & -> & H2)%list_elem_of_fmap.
        destruct (Harr _ _ H1 H2) as [Hid Hname]. simpl. split; congruence.
    + f_equal. apply (f_equal (map snd)) in H. rewrite !map_map in H. exact H.
Qed.

Lemma C1_ids_as_resolved_at_arrival_witness :
  steady 0 "search" (final initial Examples.head) Examples.refiled = true ∧
  String.concat "" (map partialInputOf
    (inputsAt 0 (log initial (Examples.head ++ Examples.refiled)))) = "[1,2]" ∧
  ∀ ev1 ev2,
    ev1 ∈ inputsAt 0 (log (final initial Examples.head) Examples.refiled) →
    ev2 ∈ inputsAt 0 (log (final initial Examples.head) Examples.refiled) →
    eventName ev1 = Some "search" → eventName ev2 = Some "search" →
    eventId ev1 = eventId ev2.
Proof.
  assert (Hs : steady 0 "search" (final initial Examples.head) Examples.refiled = true)
    by (vm_compute; reflexivity).
  destruct (C1_ids_as_resolved_at_arrival Examples.head Examples.refiled 0 "search" Hs)
    as (Hsame & _ & Hall).
  split_and!; [exact Hs| |exact Hsame].
  destruct (Hall (Examples.head ++ Examples.refiled)) as (_ & _ & _ & -> & _).
  reflexivity.
Defined.

Lemma C2_one_start_before_inputs_witness :
  Some 1 ∈ map position (log initial (Examples.head ++ Examples.body)) ∧
  ∃ pre i n d post,
    tagged (log initial (Examples.head ++ Examples.body)) =
      pre ++ (Some 1, EvToolUse i n) :: (Some 1, EvToolUseInput i n d) :: post ∧
    (∀ ev, (Some 1, ev) ∉ pre) ∧
    (∀ i' n', (Some 1, EvToolUse i' n') ∉ post) ∧
    events initial (Examples.head ++ Examples.body) =
      map snd (tagged (log initial (Examples.head ++ Examples.body))).
Proof.
  assert (Hin : Some 1 ∈ map position (log initial (Examples.head ++ Examples.body))).
  { vm_compute. set_solver. }
  split; [exact Hin|].
  exact (C2_one_start_before_inputs (Examples.head ++ Examples.body) 1 Hin).
Defined.

(** ** Streams without indices *)

Lemma positions_cons (e : Entry) l :
  omap position (e :: l) =
  match position e with
  | Some p => p :: omap position l
  | None => omap position l
  end.
Proof. done. Qed.

Lemma indexless_positions sigs st :
  Forall (λ s, match s with
               | ArgsDelta ev => index ev = None
               | _ => True
               end) sigs →
  (∀ q, (nextAutoIndex st ≤ q)%Z → toolKeyOf q ∉ emittedToolCalls st) →
  ∃ n, omap position (log st sigs) =
       map (λ k, nextAutoIndex st + Z.of_nat k) (seq 0 n).
Proof.
  intros Hall. revert st. induction Hall as [|sig sigs Hsig _ IH]; intros st Hinv.
  { by exists 0%nat. }
  rewrite log_cons, positions_cons. cbn [position].
  destruct sig as [d|tcs|ev]; cbn [resolved].
  - apply IH, Hinv.
  - destruct tcs as [tcs|]; cbn [handle onChunk fst]; [|by apply IH].
    destruct (chunkLoop_keeps 0 tcs st) as [He Hn].
    destruct (IH (chunkLoop 0 tcs st)) as [n Hpos]; [by rewrite He, Hn|].
    exists n. by rewrite Hpos, Hn.
  - assert (Hp : toolIndexOf ev st = nextAutoIndex st)
      by (unfold toolIndexOf; by rewrite Hsig).
    assert (Hfresh : toolKeyOf (toolIndexOf ev st) ∉ emittedToolCalls st)
      by (rewrite Hp; apply Hinv; lia).
    cbn [handle].
    destruct (onArgsDelta_cases ev st) as [[Hin _]|(_ & _ & He & _ & _ & Hn)]; [done|].
    destruct (IH (onArgsDelta ev st).1) as [n Hpos].
    { intros q Hq. rewrite Hn, Hp in Hq. rewrite He, Hp.
      intros [Hk%elem_of_singleton|Hold]%elem_of_union.
      - apply toolKeyOf_inj in Hk. lia.
      - revert Hold. apply Hinv. lia. }
    exists (S n). rewrite Hpos, Hn, Hp. cbn [seq map]. f_equal; [lia|].
    rewrite <- fmap_S_seq, <- list_fmap_compose. apply list_fmap_ext.
    intros _ k _. simpl. lia.
Qed.

End StreamFacts.

(** * The formatter and mapper properties at concrete messages

    [JSON.parse] and [JSON.stringify] are [JsonText.parse] and
    [JsonText.stringify]; the clock is a [Z]. *)

Module Instances.
Import Provider Claims Examples ProviderFacts FormatterFacts.

Local Abbreviation parse := JsonText.parse.
Local Abbreviation stringify := JsonText.stringify.

Lemma C4_tool_result_scenario_witness :
  isSupportedImageType (mediaTypeOf png) = true ∧
  formatInputMessage stringify
    {| msg_role := user;
       msg_content := [ToolResult "call_a" [ResultText "42"; ResultImage png]] |}
    cache =
  Several [ToolMessage ("42" +:+ newline +:+ "[See image 1 below]") "call_a";
           ChatMessage user
             [PartImageUrl "data:image/png;base64,iVBORw0KGgo=" "high"] None].
Proof.
  assert (Hsup : isSupportedImageType (mediaTypeOf png) = true) by reflexivity.
  split; [exact Hsup|].
  exact (proj1 (C4_tool_result_scenario stringify cache "call_a" png Hsup)).
Defined.


Lemma C6_round_trip_witness :
  parse (stringify query) = Some query ∧
  parse (stringify page) = Some page ∧
  ∃ parts fm,
    formatInputMessage stringify
      {| msg_role := assistant; msg_content := assistantContent |} cache =
      Single (ChatMessage assistant parts
                (Some [FunctionCall "call_a" "search" (stringify query);
                       FunctionCall "call_b" "fetch" (stringify page)])) ∧
    mapOaiMessageToMessage parse
      {| cm_role := assistant; cm_content := None;
         cm_tool_calls := Some [FunctionCall "call_a" "search" (stringify query);
                                FunctionCall "call_b" "fetch" (stringify page)] |}
      None 0 = Ok fm ∧
    List.filter isToolUse (fm_content fm) =
      [ToolUse "call_a" "search" query; ToolUse "call_b" "fetch" page] ∧
    stop_reason fm = tool_use.
Proof.
  assert (H1 : parse (stringify query) = Some query) by (vm_compute; reflexivity).
  assert (H2 : parse (stringify page) = Some page) by (vm_compute; reflexivity).
  split_and!; [exact H1|exact H2|].
  apply (C6_round_trip (Date:=Z) parse stringify cache assistantContent
           "call_a" "search" query "call_b" "fetch" page None None 0);
    [reflexivity|exact H1|exact H2].
Defined.

(** C7, at the failing input: the file id [constructor] is absent from the
    cache map, yet the lookup finds the member of that name that the map
    object inherits.  The block is kept, with no cache path and no url, it
    takes the number 1, and the attachment that the cache does hold is
    numbered 2 instead of 1. *)
Theorem C7_inherited_name_is_kept :
  cache = Some {[ "file_1" := {| cachePath := "/cache/file_1.png";
                                 signedUrl := "https://files.example/file_1.png" |} ]} ∧
  formatInputMessage stringify
    {| msg_role := user;
       msg_content := FileAttachment "constructor" "image/png" :: attachments |} cache =
  Several
    [ChatMessage user
       [PartText ("Attachment 1:" +:+ newline +:+ "MIME type: image/png" +:+ newline +:+
                  "Cached at: undefined");
        PartImageNoUrl "high";
        PartText ("Attachment 2:" +:+ newline +:+ "MIME type: image/png" +:+ newline +:+
                  "Cached at: /cache/file_1.png");
        PartImageUrl "https://files.example/file_1.png" "high";
        PartText "What is on this picture?"] None] ∧
  formatInputMessage stringify
    {| msg_role := user; msg_content := attachments |} cache =
  Several
    [ChatMessage user
       [PartText ("Attachment 1:" +:+ newline +:+ "MIME type: image/png" +:+ newline +:+
                  "Cached at: /cache/file_1.png");
        PartImageUrl "https://files.example/file_1.png" "high";
        PartText "What is on this picture?"] None].
Proof. split_and!; vm_compute; reflexivity. Qed.

Lemma C8_malformed_arguments_throw_witness :
  parse "{oops" = None ∧
  ∃ text, parse text = None ∧
    mapOaiMessageToMessage parse brokenCompletion (Some usageRecord) 0 =
      Throw (SyntaxError text).
Proof.
  assert (Hbad : parse "{oops" = None) by (vm_compute; reflexivity).
  split; [exact Hbad|].
  apply (C8_malformed_arguments_throw (Date:=Z) parse brokenCompletion
           (Some usageRecord) 0
           [FunctionCall "call_a" "search" "[1,2]"; FunctionCall "call_b" "fetch" "{oops"]
           "call_b" "fetch" "{oops"); [reflexivity| |exact Hbad].
  apply list_elem_of_further, list_elem_of_here.
Defined.

Lemma C10_unsupported_kinds_only_witness :
  ∃ fm, mapOaiMessageToMessage parse customCompletion None 0 = Ok fm ∧
    stop_reason fm = tool_use ∧
    fm_content fm = [Text (nullish (cm_content customCompletion) "")] ∧
    Forall (λ c, isToolUse c = false) (fm_content fm).
Proof.
  apply (C10_unsupported_kinds_only (Date:=Z) parse customCompletion None 0
           [CustomCall "call_c" "shell" "ls"]);
    [reflexivity|discriminate|].
  constructor; [reflexivity|constructor].
Defined.

End Instances.

(** * Further properties of the stream reconstructor *)

Module StreamMore.
Import Stream Claims Shapes StreamFacts.

Lemma events_cons sig rest st :
  events st (sig :: rest) = (handle sig st).2 ++ events (handle sig st).1 rest.
Proof. simpl. by destruct (handle sig st). Qed.

(** X1: whatever the identity state, the subscriber receives every content
    delta and every argument delta verbatim, once, and in arrival order;
    start events are the only events added. *)
Theorem deltas_forwarded_in_order st sigs :
  omap delivered (events st sigs) = omap carried sigs.
Proof.
  revert st. induction sigs as [|sig sigs IH]; intros st; [done|].
  rewrite events_cons, omap_app, IH.
  destruct sig as [d|tcs|ev]; simpl; [done|done|].
  by destruct (onArgsDelta_cases ev st) as [[_ ->]|(_ & -> & _)].
Qed.

Lemma handle_emitted_iff sig st k :
  k ∈ emittedToolCalls (handle sig st).1 ↔
  k ∈ emittedToolCalls st ∨ ∃ q, resolved sig st = Some q ∧ k = toolKeyOf q.
Proof.
  destruct sig as [d|[tcs|]|ev]; simpl.
  - split; [by left|]. by intros [?|(q & ? & _)].
  - destruct (chunkLoop_keeps 0 tcs st) as [-> _].
    split; [by left|]. by intros [?|(q & ? & _)].
  - split; [by left|]. by intros [?|(q & ? & _)].
  - destruct (onArgsDelta_cases ev st) as [[Hin ->]|(_ & _ & -> & _)]; simpl.
    + split; [by left|]. intros [?|(q & [= <-] & ->)]; done.
    + rewrite elem_of_union, elem_of_singleton. split.
      * intros [->|?]; [right; eauto|by left].
      * intros [?|(q & [= <-] & ->)]; [by right|by left].
Qed.

Lemma emitted_after sigs st k :
  k ∈ emittedToolCalls (final st sigs) ↔
  k ∈ emittedToolCalls st ∨ ∃ q, Some q ∈ map position (log st sigs) ∧ k = toolKeyOf q.
Proof.
  revert st. induction sigs as [|sig sigs IH]; intros st.
  - simpl. split; [by left|]. intros [?|(q & Hq & _)]; [done|].
    by apply elem_of_nil in Hq.
  - rewrite log_cons. simpl. rewrite IH, handle_emitted_iff. split.
    + intros [[?|(q & Hq & ->)]|(q & Hq & ->)]; [by left|right..].
      * exists q. split; [|done]. rewrite <- Hq. apply list_elem_of_here.
      * exists q. split; [|done]. by apply list_elem_of_further.
    + intros [?|(q & Hq & ->)]; [by left; left|].
      apply elem_of_cons in Hq as [Hq|Hq]; [left; right|right]; eauto.
Qed.

Lemma starts_counted sigs st :
  (length (List.filter isStart (events st sigs)) + size (emittedToolCalls st))%nat =
  size (emittedToolCalls (final st sigs)).
Proof.
  revert st. induction sigs as [|sig sigs IH]; intros st; [done|].
  rewrite events_cons, List.filter_app, length_app. simpl.
  rewrite <- IH. destruct sig as [d|[tcs|]|ev]; simpl; try done.
  - by destruct (chunkLoop_keeps 0 tcs st) as [-> _].
  - destruct (onArgsDelta_cases ev st) as [[_ ->]|(Hnew & -> & -> & _)]; simpl; [done|].
    rewrite size_union, size_singleton by set_solver. lia.
Qed.

(** X2: after any stream, the set of emitted keys holds exactly the keys of
    the positions that argument deltas resolved to, and its size is the
    number of [tool_use] events emitted. *)
Theorem emitted_set_tracks_positions sigs :
  (∀ p, toolKeyOf p ∈ emittedToolCalls (final initial sigs) ↔
        Some p ∈ map position (log initial sigs)) ∧
  length (List.filter isStart (events initial sigs)) =
    size (emittedToolCalls (final initial sigs)).
Proof.
  split.
  - intros p. rewrite emitted_after. split.
    + intros [Hin|(q & Hq & ->%toolKeyOf_inj)]; [|done]. by apply elem_of_empty in Hin.
    + intros Hp. right. eauto.
  - rewrite <- starts_counted.
    change (emittedToolCalls initial) with (∅ : gset string).
    rewrite size_empty. lia.
Qed.

Lemma chunkLoop_app i before after st :
  chunkLoop i (before ++ after) st =
  chunkLoop (i + Z.of_nat (length before)) after (chunkLoop i before st).
Proof.
  revert i st. induction before as [|tc before IH]; intros i st; simpl.
  - by rewrite Z.add_0_r.
  - rewrite IH. f_equal. lia.
Qed.

Lemma onArgsDelta_ids ev st e :
  e ∈ (onArgsDelta ev st).2 →
  eventId e = Some (toolUseIdOf (toolIndexOf ev st) (name ev) st).
Proof.
  destruct (onArgsDelta_cases ev st) as [[_ ->]|(_ & -> & _)]; simpl.
  - intros He%list_elem_of_singleton. by subst.
  - intros [->|He%list_elem_of_singleton]%elem_of_cons; [done|by subst].
Qed.

(** X3: an id that a raw chunk carries in its last entry is filed under
    the entry's index, or under its array position when the index is
    missing, and the events of the next argument delta that resolves to
    that position carry this id, whatever name the delta reports. *)
Theorem captured_id_used_by_position st before tc id ev :
  truthy (tc_id tc) = Some id →
  toolIndexOf ev (onChunk (Some (before ++ [tc])) st) = filedAt before tc →
  ∀ e, e ∈ (onArgsDelta ev (onChunk (Some (before ++ [tc])) st)).2 →
       eventId e = Some id.
Proof.
  intros Hid Hpos e He. rewrite (onArgsDelta_ids _ _ _ He), Hpos. f_equal.
  unfold toolUseIdOf, onChunk. rewrite chunkLoop_app. simpl.
  unfold recordToolCall. rewrite Hid. simpl.
  unfold filedAt. by rewrite Z.add_0_l, lookup_insert_eq.
Qed.

(** X4: when the last entry of a raw chunk carries an id and a name, an
    argument delta that reports this name and resolves to a position with
    no id on file carries the id recorded under the name. *)
Theorem captured_id_used_by_name st before tc id n ev :
  truthy (tc_id tc) = Some id →
  truthy (tc_fn_name tc) = Some n →
  name ev = n →
  toolCallIds (onChunk (Some (before ++ [tc])) st)
    !! toolIndexOf ev (onChunk (Some (before ++ [tc])) st) = None →
  ∀ e, e ∈ (onArgsDelta ev (onChunk (Some (before ++ [tc])) st)).2 →
       eventId e = Some id.
Proof.
  intros Hid Hn Hname Hnone e He. rewrite (onArgsDelta_ids _ _ _ He). f_equal.
  unfold toolUseIdOf. rewrite Hnone, Hname. simpl.
  unfold onChunk. rewrite chunkLoop_app. simpl.
  unfold recordToolCall. rewrite Hid, Hn. simpl. by rewrite lookup_insert_eq.
Qed.

Lemma idless_keeps sig st :
  idless sig = true →
  toolCallIds (handle sig st).1 = toolCallIds st ∧
  toolCallIdsByName (handle sig st).1 = toolCallIdsByName st.
Proof.
  destruct sig as [d|[tcs|]|ev]; simpl; intros Hq; try done.
  - assert (chunkLoop 0 tcs st = st) as ->; [|done].
    generalize 0. revert st. induction tcs as [|tc tcs IH]; intros st i; [done|].
    simpl in Hq |- *. apply andb_prop in Hq as [Htc Hrest].
    apply bool_decide_eq_true in Htc. unfold recordToolCall. rewrite Htc. by apply IH.
  - by destruct (onArgsDelta_cases ev st) as [[_ ->]|(_ & _ & _ & -> & -> & _)].
Qed.

Lemma fallback_ids sigs st p ev :
  Forall (λ s, idless s = true) sigs →
  toolCallIds st = ∅ → toolCallIdsByName st = ∅ →
  (Some p, ev) ∈ tagged (log st sigs) →
  eventId ev = Some ("fallback_" +:+ pretty p).
Proof.
  intros Hq. revert st. induction Hq as [|sig sigs Hsig _ IH]; intros st Hids Hnames.
  - by intros ?%elem_of_nil.
  - rewrite log_cons, tagged_cons. simpl. intros [Hhd|Htl]%elem_of_app.
    + apply list_elem_of_fmap in Hhd as (e & [= Hp <-] & He).
      destruct sig as [d|tcs|a]; simpl in Hp; try done. injection Hp as Hp. subst p.
      simpl in He. rewrite (onArgsDelta_ids _ _ _ He). f_equal.
      unfold toolUseIdOf. by rewrite Hids, Hnames, !lookup_empty.
    + destruct (idless_keeps sig st Hsig) as [H1 H2].
      eapply IH; [| |done]; congruence.
Qed.

(** X5: in a stream whose raw chunks carry no id, every tool event of
    position [p] carries the synthesized id [fallback_p], so events of two
    different positions never share an id. *)
Theorem fallback_ids_do_not_collide sigs :
  Forall (λ s, idless s = true) sigs →
  (∀ p ev, (Some p, ev) ∈ tagged (log initial sigs) →
           eventId ev = Some ("fallback_" +:+ pretty p)) ∧
  (∀ p q ev1 ev2,
     (Some p, ev1) ∈ tagged (log initial sigs) →
     (Some q, ev2) ∈ tagged (log initial sigs) →
     eventId ev1 = eventId ev2 → p = q).
Proof.
  intros Hq.
  assert (Hfb : ∀ p ev, (Some p, ev) ∈ tagged (log initial sigs) →
                        eventId ev = Some ("fallback_" +:+ pretty p)).
  { intros p ev. by apply fallback_ids. }
  split; [exact Hfb|].
  intros p q ev1 ev2 H1%Hfb H2%Hfb Heq. rewrite H1, H2 in Heq.
  injection Heq as Heq. by apply toolKeyOf_inj.
Qed.

Lemma positions_counted sigs st :
  length (omap position (log st sigs)) = length (List.filter isArgsDelta sigs).
Proof.
  revert st. induction sigs as [|sig sigs IH]; intros st; [done|].
  rewrite log_cons, positions_cons. destruct sig; simpl; by rewrite IH.
Qed.

(** X6: in a stream none of whose argument deltas reports an index, the
    deltas resolve to the positions 0, 1, 2, ... in arrival order: every
    delta opens a position of its own. *)
Theorem indexless_deltas_open_consecutive_positions sigs :
  Forall (λ s, match s with
               | ArgsDelta ev => index ev = None
               | _ => True
               end) sigs →
  omap position (log initial sigs) =
  map Z.of_nat (seq 0 (length (List.filter isArgsDelta sigs))).
Proof.
  intros Hall.
  destruct (indexless_positions sigs initial Hall) as [n Hn].
  { intros q _. apply not_elem_of_empty. }
  pose proof (positions_counted sigs initial) as Hlen.
  rewrite Hn, length_map, length_seq in Hlen. subst n. rewrite Hn.
  apply map_ext. intros k. simpl. lia.
Qed.

End StreamMore.

(** * Streams without index and without id *)

Module FallbackFacts.
Import Stream Claims Shapes StreamFacts StreamMore.

Lemma idless_chunk_keeps tcs st :
  idless (Chunk tcs) = true → onChunk tcs st = st.
Proof.
  destruct tcs as [tcs|]; [|done]. simpl. generalize 0.
  revert st. induction tcs as [|tc tcs IH]; intros st i Hq; [done|].
  simpl in Hq |- *. apply andb_prop in Hq as [Htc Hrest].
  apply bool_decide_eq_true in Htc. unfold recordToolCall. rewrite Htc. by apply IH.
Qed.

Lemma fragments_cons sig sigs :
  fragments (sig :: sigs) =
  match sig with ArgsDelta ev => [ev] | _ => [] end ++ fragments sigs.
Proof. by destruct sig. Qed.

Lemma indexless_tool_events sigs st :
  Forall indexless sigs →
  Forall (λ s, idless s = true) sigs →
  toolCallIds st = ∅ → toolCallIdsByName st = ∅ →
  (∀ q, (nextAutoIndex st ≤ q)%Z → toolKeyOf q ∉ emittedToolCalls st) →
  List.filter isToolEvent (events st sigs) =
  concat (imap (λ k f,
    [EvToolUse ("fallback_" +:+ pretty (nextAutoIndex st + Z.of_nat k)) (name f);
     EvToolUseInput ("fallback_" +:+ pretty (nextAutoIndex st + Z.of_nat k))
       (name f) (arguments_delta f)]) (fragments sigs)).
Proof.
  intros Hix. revert st.
  induction Hix as [|sig sigs Hsig _ IH]; intros st Hq Hids Hnames Hfresh; [done|].
  apply Forall_cons in Hq as [Hq1 Hq].
  rewrite events_cons, List.filter_app, fragments_cons.
  destruct sig as [d|tcs|ev].
  - simpl. by apply IH.
  - simpl. rewrite (idless_chunk_keeps tcs st Hq1). by apply IH.
  - simpl in Hsig.
    assert (Hp : toolIndexOf ev st = nextAutoIndex st).
    { unfold toolIndexOf. by rewrite Hsig. }
    assert (Hid : toolUseIdOf (toolIndexOf ev st) (name ev) st =
                  "fallback_" +:+ pretty (nextAutoIndex st)).
    { unfold toolUseIdOf. by rewrite Hids, Hnames, !lookup_empty, Hp. }
    cbn [handle app].
    destruct (onArgsDelta_cases ev st) as [[Hin _]|(_ & Hout & Hem & H1 & H2 & Hnext)].
    { exfalso. apply (Hfresh (toolIndexOf ev st)); [lia|done]. }
    rewrite Hout, Hid, imap_cons. cbn [List.filter isToolEvent concat app].
    rewrite Z.add_0_r. do 2 f_equal.
    rewrite IH; [|done|congruence|congruence|].
    + f_equal. apply imap_ext. intros k f _. simpl.
      rewrite Hnext, Hp. by replace (nextAutoIndex st + 1 + Z.of_nat k)
        with (nextAutoIndex st + Z.of_nat (S k)) by lia.
    + intros q Hle. rewrite Hem, Hnext, Hp in *.
      rewrite not_elem_of_union, not_elem_of_singleton. split.
      * intros Heq%toolKeyOf_inj. lia.
      * apply Hfresh. lia.
Qed.

Lemma inputs_among_tool_events l :
  List.filter isInput (List.filter isToolEvent l) = List.filter isInput l.
Proof.
  induction l as [|[c|i n|i n a] l IH]; simpl; [done|done|done|]. by rewrite IH.
Qed.

Lemma inputs_of_pairs {A} (f g : nat → A → ModelEvent) l :
  (∀ k x, isInput (f k x) = false) → (∀ k x, isInput (g k x) = true) →
  List.filter isInput (concat (imap (λ k x, [f k x; g k x]) l)) = imap g l.
Proof.
  intros Hf Hg. revert f g Hf Hg.
  induction l as [|x l IH]; intros f g Hf Hg; [done|].
  rewrite !imap_cons. simpl. rewrite Hf, Hg. f_equal.
  apply (IH (f ∘ S) (g ∘ S)); intros k y; simpl; auto.
Qed.

Lemma indexless_input_ids sigs :
  Forall indexless sigs →
  Forall (λ s, idless s = true) sigs →
  inputIds sigs =
  imap (λ k _, Some ("fallback_" +:+ pretty (Z.of_nat k))) (fragments sigs).
Proof.
  intros Hix Hq. unfold inputIds.
  rewrite <- inputs_among_tool_events, (indexless_tool_events sigs initial Hix Hq);
    [|done|done|intros q _; apply not_elem_of_empty].
  rewrite (inputs_of_pairs
    (λ k f, EvToolUse ("fallback_" +:+ pretty (nextAutoIndex initial + Z.of_nat k)) (name f))
    (λ k f, EvToolUseInput ("fallback_" +:+ pretty (nextAutoIndex initial + Z.of_nat k))
              (name f) (arguments_delta f))); [|done..].
  apply list_eq. intros i.
  rewrite list_lookup_fmap, !list_lookup_imap.
  by destruct (fragments sigs !! i).
Qed.

Lemma indexless_id_at sigs i id :
  Forall indexless sigs →
  Forall (λ s, idless s = true) sigs →
  inputIds sigs !! i = Some id →
  (i < length (fragments sigs))%nat ∧ id = Some ("fallback_" +:+ pretty (Z.of_nat i)).
Proof.
  intros Hix Hq. rewrite (indexless_input_ids sigs Hix Hq), list_lookup_imap.
  destruct (fragments sigs !! i) as [f|] eqn:Hf; [|done].
  intros [= <-]. split; [|done]. by apply lookup_lt_Some in Hf.
Qed.

Lemma fallback_id_inj i j :
  Some ("fallback_" +:+ pretty (Z.of_nat i)) = Some ("fallback_" +:+ pretty (Z.of_nat j)) →
  i = j.
Proof.
  intros [= Heq]. apply Nat2Z.inj. by apply toolKeyOf_inj.
Qed.

(** C3, counterexample: one call without index and without id, delivered
    in two fragments, gets the ids [fallback_0] and [fallback_1]: the two
    fragments of the one call do not carry one id. *)
Lemma C3_one_call_in_two_fragments_gets_two_ids :
  Forall (λ s, match s with ArgsDelta ev => index ev = None | _ => True end)
    Examples.split_call ∧
  Forall (λ s, idless s = true) Examples.split_call ∧
  inputIds Examples.split_call = [Some "fallback_0"; Some "fallback_1"] ∧
  ¬ fallback_coverage [0%nat; 0%nat] Examples.split_call.
Proof.
  split_and!; [repeat constructor..|reflexivity|].
  intros Hcov.
  assert (Some "fallback_0" = Some "fallback_1") as [=].
  { by apply (Hcov 0%nat 1%nat 0%nat 0%nat). }
Qed.

(** C3, amended: in a stream whose argument deltas report no index and
    whose raw chunks carry no id, every fragment is emitted as a call of its
    own: the k-th fragment, counting from 0, gives one [tool_use] event and
    one [tool_use_input] event, both with the id [fallback_k], the
    fragment's name and, in the second, the fragment's text.  The ids of
    two different fragments differ.  So fallback coverage holds exactly
    when no call is delivered in more than one fragment. *)
Theorem C3_each_indexless_fragment_is_a_call sigs :
  Forall (λ s, match s with ArgsDelta ev => index ev = None | _ => True end) sigs →
  Forall (λ s, idless s = true) sigs →
  List.filter isToolEvent (events initial sigs) =
    concat (imap (λ k f,
      [EvToolUse ("fallback_" +:+ pretty (Z.of_nat k)) (name f);
       EvToolUseInput ("fallback_" +:+ pretty (Z.of_nat k))
         (name f) (arguments_delta f)]) (fragments sigs)) ∧
  (∀ i j idi idj,
     inputIds sigs !! i = Some idi → inputIds sigs !! j = Some idj →
     (i = j ↔ idi = idj)) ∧
  (∀ calls, length calls = length (fragments sigs) →
     (fallback_coverage calls sigs ↔ NoDup calls)).
Proof.
  intros Hix Hq.
  assert (Hids : ∀ i j idi idj,
     inputIds sigs !! i = Some idi → inputIds sigs !! j = Some idj →
     (i = j ↔ idi = idj)).
  { intros i j idi idj Hi Hj. split.
    - intros ->. congruence.
    - destruct (indexless_id_at sigs i idi Hix Hq Hi) as [_ ->].
      destruct (indexless_id_at sigs j idj Hix Hq Hj) as [_ ->].
      apply fallback_id_inj. }
  split_and!; [|exact Hids|].
  - rewrite (indexless_tool_events sigs initial Hix Hq);
      [|done|done|intros q _; apply not_elem_of_empty].
    f_equal.
  - intros calls Hlen. split.
    + intros Hcov. apply NoDup_alt. intros i j c Hi Hj.
      assert (is_Some (inputIds sigs !! i)) as [idi Hidi].
      { apply lookup_lt_is_Some. rewrite (indexless_input_ids sigs Hix Hq), length_imap, <- Hlen.
        by apply lookup_lt_Some in Hi. }
      assert (is_Some (inputIds sigs !! j)) as [idj Hidj].
      { apply lookup_lt_is_Some. rewrite (indexless_input_ids sigs Hix Hq), length_imap, <- Hlen.
        by apply lookup_lt_Some in Hj. }
      apply (Hids i j idi idj Hidi Hidj).
      by apply (Hcov i j c c idi idj).
    + intros Hnd i j ci cj idi idj Hi Hj Hidi Hidj.
      rewrite <- (Hids i j idi idj Hidi Hidj). split.
      * intros <-. by apply (NoDup_lookup calls i j ci).
      * intros <-. congruence.
Qed.

Lemma C3_each_indexless_fragment_is_a_call_witness :
  Forall (λ s, match s with ArgsDelta ev => index ev = None | _ => True end)
    Examples.split_call ∧
  Forall (λ s, idless s = true) Examples.split_call ∧
  List.filter isToolEvent (events initial Examples.split_call) =
    [EvToolUse "fallback_0" "search"; EvToolUseInput "fallback_0" "search" "[1,";
     EvToolUse "fallback_1" "search"; EvToolUseInput "fallback_1" "search" "2]"] ∧
  fallback_coverage [0%nat; 1%nat] Examples.split_call.
Proof.
  assert (Hix : Forall (λ s, match s with ArgsDelta ev => index ev = None | _ => True end)
                  Examples.split_call) by (repeat constructor).
  assert (Hq : Forall (λ s, idless s = true) Examples.split_call) by (repeat constructor).
  destruct (C3_each_indexless_fragment_is_a_call Examples.split_call Hix Hq)
    as (Hev & _ & Hcov).
  split_and!; [exact Hix|exact Hq|exact Hev|].
  apply (Hcov [0%nat; 1%nat]); [reflexivity|].
  apply NoDup_cons. split; [|apply NoDup_singleton].
  intros Hin%list_elem_of_singleton. discriminate.
Defined.

End FallbackFacts.

(** * Further properties of the request formatter *)

Module FormatterMore.
Import Provider Claims Shapes FormatterFacts.

Lemma scanToolResult_spec blocks k parts images :
  scanToolResult blocks k parts images =
  ((k + length (List.filter isResultImage blocks))%nat,
   parts ++ resultLines k blocks,
   images ++ extractedImages blocks).
Proof.
  revert k parts images.
  induction blocks as [|b blocks IH]; intros k parts images.
  - simpl. by rewrite Nat.add_0_r, !app_nil_r.
  - destruct b as [text|source]; simpl.
    + rewrite IH, <- app_assoc. done.
    + unfold mapImageBlockToOpenAI, extractedImages. simpl.
      destruct (isSupportedImageType (mediaTypeOf source)) eqn:Hsup.
      * assert (∃ url, match source with
                       | Base64Source mediaType data =>
                           PartImageUrl ("data:" +:+ mediaType +:+ ";base64," +:+ data) "high"
                       | UrlSource _ url => PartImageUrl url "high"
                       end = PartImageUrl url "high") as [url ->]
          by (destruct source; eauto).
        rewrite IH, <- !app_assoc. simpl. by rewrite Nat.add_succ_r.
      * rewrite IH, <- !app_assoc. simpl. by rewrite Nat.add_succ_r.
Qed.

Lemma mapImage_supported source :
  isSupportedImageType (mediaTypeOf source) = true →
  ∃ url, mapImageBlockToOpenAI source = PartImageUrl url "high".
Proof.
  intros Hsup. unfold mapImageBlockToOpenAI. rewrite Hsup. destruct source; eauto.
Qed.

Lemma extractedImages_cons_image source blocks :
  extractedImages (ResultImage source :: blocks) =
  if isSupportedImageType (mediaTypeOf source)
  then mapImageBlockToOpenAI source :: extractedImages blocks
  else extractedImages blocks.
Proof.
  unfold extractedImages. simpl. by destruct (isSupportedImageType _).
Qed.

Lemma extractedImages_images blocks :
  length (List.filter isImagePart (extractedImages blocks)) =
    length (List.filter isSupportedResultImage blocks) ∧
  Forall (λ p, match p with
               | PartImageUrl _ detail | PartImageNoUrl detail => detail = "high"
               | PartText _ => True
               end)
         (extractedImages blocks).
Proof.
  induction blocks as [|b blocks [IH1 IH2]]; [done|].
  destruct b as [t|source]; [done|].
  rewrite extractedImages_cons_image. simpl.
  destruct (isSupportedImageType (mediaTypeOf source)) eqn:Hsup; [|done].
  destruct (mapImage_supported source Hsup) as [url ->]. simpl.
  split; [by rewrite IH1|by constructor].
Qed.

Section Formatter.
Context {Json Date : Type}.
Variable JSON_parse : string → option Json.
Variable JSON_stringify : Json → string.

Local Abbreviation CacheMap := (option (gmap string FileAttachmentCache)).
Local Abbreviation Blocks := (list (ContentBlock Json)).

(** The parts one result of the [map] callback leaves after
    [.filter(...).flat()]. *)
Local Abbreviation partsOfResult r := (flatParts (List.filter notNull [r])).

Lemma flatParts_cons r rs :
  flatParts (List.filter notNull (r :: rs)) =
  partsOfResult r ++ flatParts (List.filter notNull rs).
Proof. destruct r; simpl; by rewrite ?app_nil_r. Qed.

Lemma mapUserBlocks_cons (cache : CacheMap) c (cs : Blocks) st :
  mapUserBlocks cache (c :: cs) st =
  ((mapUserBlocks cache cs (mapUserBlock cache c st).1).1,
   (mapUserBlock cache c st).2 :: (mapUserBlocks cache cs (mapUserBlock cache c st).1).2).
Proof.
  simpl. destruct (mapUserBlock cache c st) as [st1 r]. simpl.
  by destruct (mapUserBlocks cache cs st1).
Qed.

(** One step of the callback, in terms of the measures. *)
Lemma mapUserBlock_spec (cache : CacheMap) (c : ContentBlock Json) st :
  let st' := (mapUserBlock cache c st).1 in
  toolMessages st' = toolMessages st ++ toolMessagesFrom (toolResultImageIndex st) [c] ∧
  toolResultImageIndex st' = (toolResultImageIndex st + resultImages [c])%nat ∧
  attachmentIndex st' = (attachmentIndex st + resolvedAttachments cache [c])%nat.
Proof.
  destruct c as [t|src|i n v|i blocks|f m]; simpl;
    rewrite ?app_nil_r, ?Nat.add_0_r; try done.
  - rewrite scanToolResult_spec. simpl. done.
  - destruct (cacheLookup cache f); simpl; rewrite ?app_nil_r; split_and!; try done; lia.
Qed.

Lemma toolMessagesFrom_app k (pre post : Blocks) :
  toolMessagesFrom k (pre ++ post) =
  toolMessagesFrom k pre ++ toolMessagesFrom (k + resultImages pre) post.
Proof.
  revert k. induction pre as [|c pre IH]; intros k; simpl.
  - by rewrite Nat.add_0_r.
  - destruct c; simpl; rewrite ?IH; try done.
    by rewrite Nat.add_assoc.
Qed.

Lemma mapUserBlocks_spec (cache : CacheMap) (cs : Blocks) st :
  let st' := (mapUserBlocks cache cs st).1 in
  toolMessages st' = toolMessages st ++ toolMessagesFrom (toolResultImageIndex st) cs ∧
  toolResultImageIndex st' = (toolResultImageIndex st + resultImages cs)%nat ∧
  attachmentIndex st' = (attachmentIndex st + resolvedAttachments cache cs)%nat.
Proof.
  revert st. induction cs as [|c cs IH]; intros st.
  - simpl. by rewrite app_nil_r, !Nat.add_0_r.
  - rewrite mapUserBlocks_cons. cbn [fst].
    destruct (IH (mapUserBlock cache c st).1) as (-> & -> & ->).
    destruct (mapUserBlock_spec cache c st) as (-> & -> & ->).
    change (c :: cs) with ([c] ++ cs).
    rewrite toolMessagesFrom_app, <- app_assoc.
    split_and!; [done|destruct c; simpl; lia..].
Qed.

Lemma toolMessagesFrom_ids k (content : Blocks) :
  omap toolCallIdOf (toolMessagesFrom k content) = toolResultIds content.
Proof.
  revert k. induction content as [|c content IH]; intros k; [done|].
  destruct c; simpl; by rewrite ?IH.
Qed.

(** X7: the tool-role messages of a formatted user message carry, in
    order, the [toolUseId]s of the message's [tool_result] blocks, one
    message per block.  The message of a block has one line per sub-block,
    and its image placeholders continue the numbering of the tool results
    before it in the same message, images of unsupported types counted. *)
Theorem tool_messages_one_per_result (cache : CacheMap) (content : Blocks) :
  omap toolCallIdOf
    (flat1 (formatInputMessage JSON_stringify
              {| msg_role := user; msg_content := content |} cache)) =
    toolResultIds content ∧
  ∀ pre post id blocks,
    content = pre ++ ToolResult id blocks :: post →
    ToolMessage (join newline (resultLines (resultImages pre) blocks)) id
    ∈ flat1 (formatInputMessage JSON_stringify
               {| msg_role := user; msg_content := content |} cache).
Proof.
  pose proof (format_user JSON_stringify cache content) as Hfmt. simpl in Hfmt.
  rewrite Hfmt. simpl.
  destruct (mapUserBlocks_spec cache content fresh) as (-> & _ & _). simpl.
  split.
  - rewrite omap_app, toolMessagesFrom_ids.
    destruct (flatParts _); simpl; by rewrite app_nil_r.
  - intros pre post id blocks ->. apply elem_of_app. left.
    rewrite toolMessagesFrom_app. apply elem_of_app. right. simpl.
    apply list_elem_of_here.
Qed.

Lemma mapUserBlock_parts (cache : CacheMap) (c : ContentBlock Json) st :
  partsOfResult (mapUserBlock cache c st).2 = blockParts cache (attachmentIndex st) c.
Proof.
  destruct c as [t|src|i n v|i blocks|f m]; simpl; try done.
  - rewrite scanToolResult_spec. simpl. by rewrite app_nil_r.
  - destruct (cacheLookup cache f) as [entry| |]; simpl; try done;
      by destruct (isSupportedImageType m).
Qed.

Lemma mapUserBlocks_parts (cache : CacheMap) (cs : Blocks) st :
  flatParts (List.filter notNull (mapUserBlocks cache cs st).2) =
  mainPartsFrom cache (attachmentIndex st) cs.
Proof.
  revert st. induction cs as [|c cs IH]; intros st; [done|].
  rewrite mapUserBlocks_cons. cbn [snd].
  rewrite flatParts_cons, IH, mapUserBlock_parts.
  destruct (mapUserBlock_spec cache c st) as (_ & _ & ->). done.
Qed.

Lemma mainPartsFrom_app (cache : CacheMap) n (pre post : Blocks) :
  mainPartsFrom cache n (pre ++ post) =
  mainPartsFrom cache n pre
  ++ mainPartsFrom cache (n + resolvedAttachments cache pre) post.
Proof.
  revert n. induction pre as [|c pre IH]; intros n; simpl.
  - by rewrite Nat.add_0_r.
  - rewrite IH, <- app_assoc. do 3 f_equal.
    destruct c; simpl; lia.
Qed.

Lemma format_user_by_blocks (cache : CacheMap) (content : Blocks) :
  formatInputMessage JSON_stringify
    {| msg_role := user; msg_content := content |} cache =
  Several (toolMessagesFrom 0 content ++
           match mainPartsFrom cache 0 content with
           | [] => []
           | parts => [ChatMessage user parts None]
           end).
Proof.
  pose proof (format_user JSON_stringify cache content) as Hfmt. simpl in Hfmt.
  rewrite Hfmt, mapUserBlocks_parts.
  destruct (mapUserBlocks_spec cache content fresh) as (-> & _ & _). simpl.
  by destruct (mainPartsFrom cache 0 content).
Qed.

(** X8: the formatted user message is the tool messages followed by one
    user message whose content is the concatenation, in block order, of
    what each block contributes, and nothing when that is empty.  An
    attachment contributes when the lookup of its file id finds something,
    an entry of the cache map or a member that the map object inherits
    (then with the cache path [undefined]); the [n]-th such attachment is
    labelled [Attachment n], whatever stands between the attachments. *)
Theorem user_message_by_blocks (cache : CacheMap) (content : Blocks) :
  formatInputMessage JSON_stringify
    {| msg_role := user; msg_content := content |} cache =
  Several (toolMessagesFrom 0 content ++
           match mainPartsFrom cache 0 content with
           | [] => []
           | parts => [ChatMessage user parts None]
           end) ∧
  ∀ pre post fileId mimeType,
    content = pre ++ FileAttachment fileId mimeType :: post →
    cacheLookup cache fileId ≠ Undefined →
    PartText (attachmentText (S (resolvedAttachments cache pre)) mimeType
                (template (cachePathOf (cacheLookup cache fileId))))
    ∈ mainPartsFrom cache 0 content.
Proof.
  split; [apply format_user_by_blocks|].
  intros pre post fileId mimeType -> Hhit.
  rewrite mainPartsFrom_app. apply elem_of_app. right. simpl.
  destruct (cacheLookup cache fileId); [apply list_elem_of_here..|done].
Qed.

Lemma blockParts_images (cache : CacheMap) n (c : ContentBlock Json) :
  length (List.filter isImagePart (blockParts cache n c)) = acceptedImages cache c ∧
  Forall (λ p, match p with
               | PartImageUrl _ detail | PartImageNoUrl detail => detail = "high"
               | PartText _ => True
               end)
         (blockParts cache n c).
Proof.
  destruct c as [t|src|i m v|i blocks|f m]; simpl.
  - by repeat constructor.
  - unfold mapImageBlockToOpenAI.
    destruct (isSupportedImageType (mediaTypeOf src)); [destruct src|];
      by repeat constructor.
  - done.
  - apply extractedImages_images.
  - destruct (cacheLookup cache f); simpl; try done;
      destruct (isSupportedImageType m); by repeat constructor.
Qed.

(** X9: the image parts that a formatted user message sends are as many as
    the images of a supported media type, at top level or inside tool
    results, plus the attachments of a supported MIME type for which the
    lookup of the file id finds something (an entry of the cache map, or
    an inherited member, whose image part has no url).  Every image part
    asks for high detail; no tool-role message holds a content part. *)
Theorem images_sent_are_the_accepted_ones (cache : CacheMap) (content : Blocks) :
  let sent :=
    flat_map partsOf
      (flat1 (formatInputMessage JSON_stringify
                {| msg_role := user; msg_content := content |} cache)) in
  length (List.filter isImagePart sent) = acceptedTotal cache content ∧
  Forall (λ p, match p with
               | PartImageUrl _ detail | PartImageNoUrl detail => detail = "high"
               | PartText _ => True
               end)
         sent.
Proof.
  rewrite format_user_by_blocks. simpl.
  rewrite flat_map_app.
  assert (flat_map partsOf (toolMessagesFrom 0 content) = []) as ->.
  { generalize 0%nat. induction content as [|c content IH]; intros k; [done|].
    destruct c; simpl; by rewrite ?IH. }
  assert (flat_map partsOf
            match mainPartsFrom cache 0 content with
            | [] => []
            | parts => [ChatMessage user parts None]
            end = mainPartsFrom cache 0 content) as ->.
  { destruct (mainPartsFrom cache 0 content); simpl; by rewrite ?app_nil_r. }
  simpl. unfold acceptedTotal. generalize 0%nat.
  induction content as [|c content IH]; intros n; [done|].
  change (mainPartsFrom cache n (c :: content))
    with (blockParts cache n c
          ++ mainPartsFrom cache (n + resolvedAttachments cache [c]) content).
  change (sum_list (map (acceptedImages cache) (c :: content)))
    with (acceptedImages cache c + sum_list (map (acceptedImages cache) content))%nat.
  destruct (IH (n + resolvedAttachments cache [c])%nat) as [IH1 IH2].
  destruct (blockParts_images cache n c) as [H1 H2].
  rewrite List.filter_app, length_app, IH1, H1. split; [done|].
  by apply Forall_app.
Qed.

Lemma blockParts_nil (cache : CacheMap) n k (c : ContentBlock Json) :
  blockParts cache n c = [] ∧ toolMessagesFrom k [c] = [] ↔ vanishes cache c = true.
Proof.
  destruct c as [t|src|i m v|i blocks|f m]; simpl; try by split; [intros [? ?]|].
  destruct (cacheLookup cache f); simpl; by split; [intros [? ?]|].
Qed.

Lemma inheritedMember_spec key :
  inheritedMember key = true ↔ key ∈ OBJECT_PROTOTYPE_MEMBERS.
Proof.
  unfold inheritedMember. rewrite existsb_exists, list_elem_of_In. split.
  - intros (x & Hx & ->%String.eqb_eq). done.
  - intros Hin. exists key. split; [done|apply String.eqb_refl].
Qed.

Lemma vanishes_attachment (m : gmap string FileAttachmentCache) fileId mimeType :
  vanishes (Some m) (FileAttachment (Json:=Json) fileId mimeType) = true ↔
  m !! fileId = None ∧ fileId ∉ OBJECT_PROTOTYPE_MEMBERS.
Proof.
  simpl. rewrite <- inheritedMember_spec. destruct (m !! fileId) as [e|]; simpl.
  - split; [done|by intros [? _]].
  - destruct (inheritedMember fileId); simpl; split; try done; by intros [_ ?].
Qed.

(** X10: a user message is formatted to no wire message at all exactly
    when each of its blocks is a [tool_use] block or a file attachment for
    whose file id the lookup yields [undefined]: the id is no entry of the
    cache map and no name of a member the map object inherits.  An empty
    message is one case. *)
Theorem user_message_vanishes_iff (cache : CacheMap) (content : Blocks) :
  (formatInputMessage JSON_stringify
     {| msg_role := user; msg_content := content |} cache = Several [] ↔
   Forall (λ c, vanishes cache c = true) content) ∧
  (∀ (m : gmap string FileAttachmentCache) fileId mimeType,
     vanishes (Some m) (FileAttachment (Json:=Json) fileId mimeType) = true ↔
     m !! fileId = None ∧ fileId ∉ OBJECT_PROTOTYPE_MEMBERS).
Proof.
  split; [|apply vanishes_attachment].
  rewrite format_user_by_blocks.
  assert (Hiff : ∀ k n,
    toolMessagesFrom k content = [] ∧ mainPartsFrom cache n content = [] ↔
    Forall (λ c, vanishes cache c = true) content).
  { induction content as [|c content IH]; intros k n; [by split|].
    rewrite Forall_cons, <- (IH (k + resultImages [c])%nat
                               (n + resolvedAttachments cache [c])%nat),
      <- (blockParts_nil cache n k c).
    change (c :: content) with ([c] ++ content).
    rewrite toolMessagesFrom_app. simpl.
    rewrite !app_nil. tauto. }
  split.
  - intros [= Heq]. apply (Hiff 0%nat 0%nat).
    apply app_eq_nil in Heq as [-> Hmain].
    by destruct (mainPartsFrom cache 0 content).
  - intros Hall. apply (Hiff 0%nat 0%nat) in Hall as [-> ->]. done.
Qed.

Lemma toolCalls_shape (content : Blocks) :
  let calls := omap (toToolCall JSON_stringify) (List.filter isToolUse content) in
  map callId calls = toolUseIds content ∧
  Forall (λ c, isFunctionCall c = true) calls ∧
  length calls = length (List.filter isToolUse content).
Proof.
  induction content as [|c content (IH1 & IH2 & IH3)]; [done|].
  destruct c; simpl; try done.
  split_and!; [by f_equal|by constructor|by f_equal].
Qed.

Lemma assistant_shape (cache : CacheMap) (content : Blocks) :
  ∃ parts calls,
    formatInputMessage JSON_stringify
      {| msg_role := assistant; msg_content := content |} cache =
      Single (ChatMessage assistant parts calls) ∧
    Forall (λ p, isImagePart p = false) parts ∧
    match calls with
    | None => toolUseIds content = []
    | Some l =>
        l ≠ [] ∧ map callId l = toolUseIds content ∧
        Forall (λ c, isFunctionCall c = true) l
    end.
Proof.
  unfold formatInputMessage. cbn [msg_role msg_content].
  destruct (toolCalls_shape content) as (Hids & Hfn & Hlen).
  cbv zeta in Hids, Hfn, Hlen. rewrite <- Hlen.
  eexists _, _. split; [done|]. split.
  - clear. induction content as [|c content IH]; [constructor|].
    destruct c; simpl; try exact IH. constructor; [done|exact IH].
  - destruct (omap (toToolCall JSON_stringify) (List.filter isToolUse content))
      as [|x l]; simpl; [by rewrite <- Hids|done].
Qed.

(** X11: an assistant message is formatted to one assistant message that
    holds text parts only (images, tool results and attachments are
    dropped).  Its [tool_calls] are absent when the message has no
    [tool_use] block, never an empty list, and otherwise are function
    calls carrying the ids of the [tool_use] blocks in order. *)
Theorem assistant_message_shape (cache : CacheMap) (content : Blocks) :
  ∃ parts calls,
    formatInputMessage JSON_stringify
      {| msg_role := assistant; msg_content := content |} cache =
      Single (ChatMessage assistant parts calls) ∧
    Forall (λ p, isImagePart p = false) parts ∧
    match calls with
    | None => toolUseIds content = []
    | Some l =>
        l ≠ [] ∧ map callId l = toolUseIds content ∧
        Forall (λ c, isFunctionCall c = true) l
    end.
Proof. apply assistant_shape. Qed.

(** X12: for an assistant message with any number of [tool_use] blocks:
    when [JSON.parse] inverts [JSON.stringify] on their inputs, mapping a
    completion that carries the formatted tool calls gives back the text
    block followed by exactly the [tool_use] blocks of the message, in
    order, and the stop reason tells whether there were any. *)
Theorem round_trip_any_number (cache : CacheMap) (content : Blocks)
    text usage (now : Date) :
  Forall (λ c, match c with
               | ToolUse _ _ input => JSON_parse (JSON_stringify input) = Some input
               | _ => True
               end) content →
  ∃ parts calls fm,
    formatInputMessage JSON_stringify
      {| msg_role := assistant; msg_content := content |} cache =
      Single (ChatMessage assistant parts calls) ∧
    mapOaiMessageToMessage JSON_parse
      {| cm_role := assistant; cm_content := text; cm_tool_calls := calls |}
      usage now = Ok fm ∧
    fm_content fm = Text (nullish text "") :: List.filter isToolUse content ∧
    stop_reason fm =
      match toolUseIds content with [] => end_turn | _ => tool_use end.
Proof.
  intros Hrt. unfold formatInputMessage. cbn [msg_role msg_content].
  destruct (toolCalls_shape content) as (Hids & _ & Hlen).
  cbv zeta in Hids, Hlen. rewrite <- Hlen, <- Hids.
  pose proof (toolCalls_back JSON_parse JSON_stringify content Hrt) as Hback.
  unfold mapOaiMessageToMessage. cbn [cm_role cm_content cm_tool_calls].
  destruct (omap (toToolCall JSON_stringify) (List.filter isToolUse content))
    as [|x l] eqn:Hcalls.
  - symmetry in Hlen. apply nil_length_inv in Hlen. rewrite Hlen.
    eexists _, _, _. split; [done|]. simpl. done.
  - eexists _, _, _. split; [done|]. cbn [length Nat.ltb Nat.leb].
    rewrite Hback. done.
Qed.

End Formatter.

End FormatterMore.

(** * Further properties of the response mapper *)

Module MapperMore.
Import Provider Claims Shapes ProviderFacts.

Section Mapper.
Context {Json Date : Type}.
Variable JSON_parse : string → option Json.

Lemma mapThrowing_ok_inv {A B} (f : A → Result B) l ys :
  mapThrowing f l = Ok ys → Forall2 (λ x y, f x = Ok y) l ys.
Proof.
  revert ys. induction l as [|x l IH]; intros ys; simpl.
  - intros [= <-]. constructor.
  - destruct (f x) as [y|] eqn:Hx; [|done].
    destruct (mapThrowing f l) as [ys'|]; [|done].
    intros [= <-]. constructor; [done|by apply IH].
Qed.

(** X13: a mapped completion keeps the role, starts with one text block
    (the empty text when the completion has none), and continues with one
    [tool_use] block per function-kind call, in order, with the call's id
    and name and its parsed arguments; calls of another kind leave no
    block.  Usage is mapped when it was supplied and absent otherwise. *)
Theorem mapped_message_structure message usage (now : Date) fm :
  mapOaiMessageToMessage JSON_parse message usage now = Ok fm →
  fm_role fm = cm_role message ∧
  Provider.usage fm = mapOaiUsage <$> usage ∧
  ∃ blocks,
    fm_content fm = Text (nullish (cm_content message) "") :: blocks ∧
    Forall2 (λ c b, ∃ id n a v,
               c = FunctionCall id n a ∧ JSON_parse a = Some v ∧ b = ToolUse id n v)
      (List.filter isFunctionCall (nullish (cm_tool_calls message) [])) blocks.
Proof.
  unfold mapOaiMessageToMessage.
  destruct (match cm_tool_calls message with Some _ => _ | None => _ end)
    as [blocks|e] eqn:Hblocks; [|done].
  intros [= <-]. simpl. split_and!; [done|by destruct usage|].
  exists blocks. split; [done|].
  destruct (cm_tool_calls message) as [calls|]; simpl.
  - apply mapThrowing_ok_inv in Hblocks.
    eapply Forall2_impl; [exact Hblocks|].
    intros [id n a|? ? ?] b Hb; simpl in Hb; [|done].
    destruct (JSON_parse a) as [v|] eqn:Ha; [|done].
    injection Hb as <-. eauto 10.
  - injection Hblocks as <-. constructor.
Qed.

(** X14: the error that the mapper throws is the [SyntaxError] of the
    first function-kind call, in the order of the completion, whose
    arguments [JSON.parse] rejects. *)
Theorem first_malformed_call_is_reported message usage (now : Date)
    good id fn_name fn_arguments rest :
  cm_tool_calls message = Some (good ++ FunctionCall id fn_name fn_arguments :: rest) →
  Forall (λ c, match c with
               | FunctionCall _ _ a => is_Some (JSON_parse a)
               | CustomCall _ _ _ => True
               end) good →
  JSON_parse fn_arguments = None →
  mapOaiMessageToMessage JSON_parse message usage now =
    Throw (SyntaxError fn_arguments).
Proof.
  intros Hcalls Hgood Hbad. unfold mapOaiMessageToMessage. rewrite Hcalls.
  assert (mapThrowing (toToolUse JSON_parse)
            (List.filter isFunctionCall
               (good ++ FunctionCall id fn_name fn_arguments :: rest)) =
          Throw (SyntaxError fn_arguments)) as ->; [|done].
  clear Hcalls. induction Hgood as [|c good Hc _ IH].
  - simpl. by rewrite Hbad.
  - destruct c as [i n a|]; [|exact IH].
    simpl in *. destruct Hc as [v ->]. by rewrite IH.
Qed.

End Mapper.

End MapperMore.

(** * Properties of the request, of [extractText] and of [findPricing] *)

Module RequestFacts.
Import Provider Claims Shapes Request FormatterFacts FormatterMore.

Section WithSchemas.
Context {Json Schema JsonSchema : Type}.
Variable JSON_stringify : Json → string.
Variable injectOutputSchema : string → option Schema → string.
Variable toJSONSchema : Schema → JsonSchema.

Local Abbreviation CacheMap := (option (gmap string FileAttachmentCache)).
Local Abbreviation build :=
  (request JSON_stringify injectOutputSchema toJSONSchema).

Lemma formattedFlat_app (cache : CacheMap) (xs ys : list (Message Json)) :
  formattedFlat JSON_stringify (xs ++ ys) cache =
  formattedFlat JSON_stringify xs cache ++ formattedFlat JSON_stringify ys cache.
Proof. unfold formattedFlat. by rewrite map_app, flat_map_app. Qed.

Lemma formattedFlat_one (cache : CacheMap) (m : Message Json) :
  formattedFlat JSON_stringify [m] cache =
  flat1 (formatInputMessage JSON_stringify m cache).
Proof. unfold formattedFlat. simpl. by rewrite app_nil_r. Qed.

Lemma toolMessagesFrom_answers k (content : list (ContentBlock Json)) :
  map toolCallIdOf (toolMessagesFrom k content) = map Some (toolResultIds content).
Proof.
  revert k. induction content as [|c content IH]; intros k; [done|].
  destruct c; simpl; rewrite ?IH; try done.
Qed.

(** X15: the request opens with the system message.  When a user message
    whose [tool_result] blocks answer, in order, the [tool_use] blocks of
    the assistant message right before it, the wire messages hold the
    assistant message with its tool calls immediately followed by the
    tool-role messages for exactly those call ids, in order, before
    anything else of the user message. *)
Theorem tool_results_follow_their_calls self params (cache : CacheMap)
    earlier calling answering later :
  messages params =
    earlier ++ {| msg_role := assistant; msg_content := calling |}
            :: {| msg_role := user; msg_content := answering |} :: later →
  toolUseIds calling ≠ [] →
  toolResultIds answering = toolUseIds calling →
  ∃ pre parts calls answers post,
    req_messages (build self params cache) =
      SystemMessage (system params)
      :: map Param (pre ++ ChatMessage assistant parts (Some calls) :: answers ++ post) ∧
    map callId calls = toolUseIds calling ∧
    map toolCallIdOf answers = map (λ c, Some (callId c)) calls.
Proof.
  intros Hmsgs Hsome Hanswer. unfold request. cbn [req_messages]. rewrite Hmsgs.
  rewrite formattedFlat_app.
  change (?a :: ?u :: later) with ([a] ++ [u] ++ later).
  rewrite !formattedFlat_app.
  destruct (assistant_shape JSON_stringify cache calling)
    as (parts & calls & Hfmt & _ & Hcalls).
  destruct calls as [calls|]; [|done]. destruct Hcalls as (_ & Hids & _).
  pose proof (format_user_by_blocks JSON_stringify cache answering) as Huser.
  rewrite !formattedFlat_one, Hfmt, Huser. cbn [flat1].
  remember (match mainPartsFrom cache 0 answering with
            | [] => []
            | c :: l => [ChatMessage user (c :: l) None]
            end) as main eqn:Hmain.
  exists (formattedFlat JSON_stringify earlier cache), parts, calls,
    (toolMessagesFrom 0 answering),
    (main ++ formattedFlat JSON_stringify later cache).
  split_and!; [|done|].
  { do 3 f_equal. simpl. by rewrite <- app_assoc. }
  by rewrite toolMessagesFrom_answers, Hanswer, <- Hids, map_map.
Qed.

(** X16: whatever effort the options configure, a model whose name starts
    with [gpt-5-chat] is sent no [reasoning_effort]; a model whose name
    starts with [o1], [o3] or [o4] is sent the configured effort, and
    [low] when none is configured. *)
Theorem reasoning_effort_by_model_name effort params (cache : CacheMap) suffix :
  reasoning_effort
    (build (constructor {| opt_model := "gpt-5-chat" +:+ suffix;
                           opt_reasoningEffort := effort |}) params cache) = None ∧
  ∀ series, series ∈ ["o1"; "o3"; "o4"] →
    reasoning_effort
      (build (constructor {| opt_model := series +:+ suffix;
                             opt_reasoningEffort := effort |}) params cache) =
    Some (nullish effort low).
Proof.
  split; [vm_compute; reflexivity|].
  intros series Hin.
  repeat (apply elem_of_cons in Hin as [->|Hin]; [vm_compute; reflexivity|]).
  by apply elem_of_nil in Hin.
Qed.

End WithSchemas.

End RequestFacts.

Module WebToolsFacts.
Import WebTools.

Lemma join_nonempty sep x xs : x ≠ "" → join sep (x :: xs) ≠ "".
Proof.
  intros Hx. unfold join. destruct x as [|c x]; [done|]. by destruct xs.
Qed.

(** X17: [extractText] never returns the empty string.  When the response
    has a text block with non-empty text the result is the newline-joined
    texts of such blocks, in order; the fallback sentence is returned only
    when there is none.  Blocks of other types, and text blocks without
    text, do not show in the result. *)
Theorem extractText_result content :
  extractText content ≠ "" ∧
  extractText content =
    match List.filter isTextBlock content with
    | [] => "No content returned."
    | blocks => join newline (map (λ b, nullish (b_text b) "") blocks)
    end ∧
  ∀ pre b post,
    content = pre ++ b :: post → isTextBlock b = false →
    extractText content = extractText (pre ++ post).
Proof.
  assert (Hspec : ∀ content, extractText content =
    match List.filter isTextBlock content with
    | [] => "No content returned."
    | blocks => join newline (map (λ b, nullish (b_text b) "") blocks)
    end).
  { clear. intros content. unfold extractText.
    destruct (List.filter isTextBlock content) as [|b blocks] eqn:Hf; [done|].
    case_decide as Hj; [|done]. exfalso. revert Hj. apply join_nonempty.
    assert (Hb : isTextBlock b = true).
    { assert (In b (List.filter isTextBlock content)) as Hin by (rewrite Hf; by left).
      by apply filter_In in Hin as [_ ?]. }
    unfold isTextBlock in Hb. apply andb_prop in Hb as [_ Hb].
    apply bool_decide_eq_true in Hb as [t Ht].
    destruct (b_text b) as [t'|]; simpl in *; [|done].
    case_decide; [done|]. by injection Ht as ->. }
  split_and!; [|apply Hspec|].
  - unfold extractText. by case_decide.
  - intros pre b post -> Hb. rewrite !Hspec, !List.filter_app. simpl. by rewrite Hb.
Qed.

End WebToolsFacts.

Module CostFacts.
Import Request Cost.

Lemma fuzzy_none table model :
  fuzzy table model = None →
  Forall (λ kv, startsWith kv.1 model = false) table.
Proof.
  induction table as [|[key pricing] table IH]; simpl; [constructor|].
  destruct (startsWith model key || startsWith key model) eqn:Hm; [done|].
  apply orb_false_elim in Hm as [_ Hm]. constructor; auto.
Qed.

Ltac peel H model :=
  destruct model as [|? model];
  [vm_compute; reflexivity
  |simpl in H; try discriminate H;
   apply andb_prop in H as [?E H]; apply Ascii.eqb_eq in E; subst].

Lemma prefix_not_inherited key pricing model :
  (key, pricing) ∈ PRICING → startsWith key model = true →
  inheritedMember model = false.
Proof.
  intros Hin Hpre.
  destruct model as [|a [|b model]]; [reflexivity| |].
  - repeat (apply elem_of_cons in Hin as [[= -> ->]|Hin];
            [simpl in Hpre; rewrite andb_true_r in Hpre;
             apply Ascii.eqb_eq in Hpre; by subst|]).
    by apply elem_of_nil in Hin.
  - repeat (apply elem_of_cons in Hin as [[= -> ->]|Hin];
            [simpl in Hpre; apply andb_prop in Hpre as [Ha Hpre];
             apply andb_prop in Hpre as [Hb _];
             apply Ascii.eqb_eq in Ha; apply Ascii.eqb_eq in Hb; subst;
             vm_compute; reflexivity|]).
    by apply elem_of_nil in Hin.
Qed.

(** X18: a model name that is a prefix of the first table key, the empty
    name included, is priced as that first entry (Opus 4.6); and no name
    that is a prefix of some table key is rejected. *)
Theorem underspecified_model_names model :
  (startsWith "claude-opus-4-6" model = true → findPricing model = Returns opus_4_6) ∧
  (∀ key pricing, (key, pricing) ∈ PRICING → startsWith key model = true →
     ∃ found, findPricing model = Returns found).
Proof.
  split.
  - intros H. do 16 (try peel H model).
  - intros key pricing Hin Hpre. unfold findPricing.
    destruct (property PRICING model); [by eexists|].
    rewrite (prefix_not_inherited key pricing model Hin Hpre).
    destruct (fuzzy PRICING model) eqn:Hf; [by eexists|].
    apply fuzzy_none in Hf. rewrite Forall_forall in Hf.
    specialize (Hf _ Hin). simpl in Hf. congruence.
Qed.

(** X19: a model id that extends a table key (a dated or suffixed variant
    of it) is priced by the entry of that key. *)
Theorem extended_model_ids key pricing suffix :
  (key, pricing) ∈ PRICING →
  findPricing (key +:+ suffix) = Returns pricing.
Proof.
  intros Hin.
  repeat (apply elem_of_cons in Hin as [[= -> ->]|Hin];
          [destruct suffix; vm_compute; reflexivity|]).
  by apply elem_of_nil in Hin.
Qed.

End CostFacts.

(** * The further properties at concrete inputs *)

Module MoreInstances.
Import Stream Provider Claims Shapes Request Examples MoreExamples.

Local Abbreviation parse := JsonText.parse.
Local Abbreviation stringify := JsonText.stringify.

Lemma captured_id_used_by_position_witness :
  truthy (tc_id idEntry) = Some "call_g" ∧
  filedAt [unindexedEntry] idEntry = 1 ∧
  ∀ e, e ∈ (onArgsDelta secondPlace
              (onChunk (Some ([unindexedEntry] ++ [idEntry])) initial)).2 →
       eventId e = Some "call_g".
Proof.
  assert (Hid : truthy (tc_id idEntry) = Some "call_g") by reflexivity.
  split_and!; [exact Hid|reflexivity|].
  apply (StreamMore.captured_id_used_by_position initial [unindexedEntry] idEntry
           "call_g" secondPlace Hid).
  reflexivity.
Defined.

Lemma captured_id_used_by_name_witness :
  nextAutoIndex afterFirstCall = 1 ∧
  filedAt [] nextEntry = 0 ∧
  ∀ e, e ∈ (onArgsDelta nextDelta (onChunk (Some ([] ++ [nextEntry])) afterFirstCall)).2 →
       eventId e = Some "call_y".
Proof.
  split_and!; [reflexivity|reflexivity|].
  apply (StreamMore.captured_id_used_by_name afterFirstCall [] nextEntry
           "call_y" "fetch" nextDelta); [reflexivity..|].
  vm_compute. reflexivity.
Defined.

Lemma fallback_ids_do_not_collide_witness :
  Forall (λ s, idless s = true) split_call ∧
  ∀ p q ev1 ev2,
    (Some p, ev1) ∈ tagged (log initial split_call) →
    (Some q, ev2) ∈ tagged (log initial split_call) →
    eventId ev1 = eventId ev2 → p = q.
Proof.
  assert (Hq : Forall (λ s, idless s = true) split_call) by (repeat constructor).
  split; [exact Hq|].
  exact (proj2 (StreamMore.fallback_ids_do_not_collide split_call Hq)).
Defined.

Lemma indexless_deltas_open_consecutive_positions_witness :
  omap position (log initial split_call) = [0; 1].
Proof.
  apply (StreamMore.indexless_deltas_open_consecutive_positions split_call).
  repeat constructor.
Defined.

Lemma round_trip_any_number_witness :
  ∃ parts calls fm,
    formatInputMessage stringify
      {| msg_role := assistant; msg_content := assistantContent |} cache =
      Single (ChatMessage assistant parts calls) ∧
    mapOaiMessageToMessage parse
      {| cm_role := assistant; cm_content := None; cm_tool_calls := calls |}
      None 0 = Ok fm ∧
    fm_content fm = Text "" :: List.filter isToolUse assistantContent ∧
    stop_reason fm = tool_use.
Proof.
  apply (FormatterMore.round_trip_any_number (Date:=Z) parse stringify cache
           assistantContent None None 0).
  repeat constructor.
Defined.

Lemma mapped_message_structure_witness :
  ∃ fm, mapOaiMessageToMessage parse mixedCompletion (Some usageRecord) 0 = Ok fm ∧
    fm_role fm = assistant ∧
    Provider.usage fm = Some (mapOaiUsage usageRecord) ∧
    ∃ blocks, fm_content fm = Text "Working." :: blocks ∧ length blocks = 2%nat.
Proof.
  destruct (mapOaiMessageToMessage parse mixedCompletion (Some usageRecord) 0)
    as [fm|e] eqn:Hfm; [|vm_compute in Hfm; discriminate Hfm].
  exists fm. split; [reflexivity|].
  destruct (MapperMore.mapped_message_structure parse mixedCompletion
              (Some usageRecord) 0 fm Hfm) as (Hrole & Husage & blocks & Hcontent & Hall).
  split_and!; [exact Hrole|exact Husage|].
  exists blocks. split; [exact Hcontent|].
  apply Forall2_length in Hall. by rewrite <- Hall.
Defined.

Lemma first_malformed_call_is_reported_witness :
  parse "{oops" = None ∧
  mapOaiMessageToMessage parse brokenCompletion (Some usageRecord) 0 =
    Throw (SyntaxError "{oops").
Proof.
  assert (Hbad : parse "{oops" = None) by (vm_compute; reflexivity).
  split; [exact Hbad|].
  apply (MapperMore.first_malformed_call_is_reported (Date:=Z) parse brokenCompletion
           (Some usageRecord) 0 [FunctionCall "call_a" "search" "[1,2]"]
           "call_b" "fetch" "{oops" []); [reflexivity| |exact Hbad].
  constructor; [|constructor]. vm_compute. by eexists.
Defined.

Lemma tool_results_follow_their_calls_witness :
  toolResultIds answers = toolUseIds assistantContent ∧
  ∃ pre parts calls answers' post,
    req_messages (request stringify (λ d _, d) id provider conversation cache) =
      SystemMessage "You are a search agent."
      :: map Param (pre ++ ChatMessage assistant parts (Some calls) :: answers' ++ post) ∧
    map callId calls = ["call_a"; "call_b"] ∧
    map toolCallIdOf answers' = map (λ c, Some (callId c)) calls.
Proof.
  assert (Hans : toolResultIds answers = toolUseIds assistantContent) by reflexivity.
  split; [exact Hans|].
  apply (RequestFacts.tool_results_follow_their_calls stringify (λ d _, d) id
           provider conversation cache
           [{| msg_role := user; msg_content := [Text "Find it."] |}]
           assistantContent answers []); [reflexivity|discriminate|exact Hans].
Defined.

Lemma extended_model_ids_witness :
  Cost.findPricing "claude-sonnet-4-6-20260101" = Cost.Returns Cost.sonnet_4_6.
Proof.
  apply (CostFacts.extended_model_ids "claude-sonnet-4-6" Cost.sonnet_4_6 "-20260101").
  vm_compute. do 4 apply list_elem_of_further. apply list_elem_of_here.
Defined.

End MoreInstances.
